(** * Coin collector game server: a model of [server.py] and its properties

    The server keeps its whole world in module-level globals ([players],
    [next_pid], [coin], [game_active], [game_end_time], [intermission_end],
    [last_winner]) and mutates them from coroutines scheduled cooperatively by
    asyncio.  A coroutine runs without interruption between two suspension
    points, so the model is a record [State] for the globals together with one
    total function per uninterrupted stretch of code; the interleaving chosen
    by the scheduler is a list of [Event]s.

    Python floats are IEEE binary64 numbers and are modelled by Rocq's
    primitive floats, which are binary64 as well.  Python integers are [Z].
    The last bit of [math.hypot] depends on the interpreter, so on the
    arbitrary arguments of the collision test it is a parameter of the model,
    the class [MathLib].
    The [players] dictionary is insertion ordered and several loops depend on
    that order, so it is an association list in insertion order. *)

From Stdlib Require Import ZArith List Bool Lia Floats String Sorted.
Import ListNotations.
Local Open Scope Z_scope.

(** ** Configuration (the CONFIG block of the source) *)

Definition TICK_RATE : Z := 20.
Definition MAP_W : Z := 800.
Definition MAP_H : Z := 500.
Definition PLAYER_SPEED : Z := 180.
Definition PLAYER_R : Z := 15.
Definition COIN_R : Z := 10.
Definition GAME_DURATION : Z := 180.
Definition INTERMISSION : Z := 10.

(** ** Numbers *)

(** The conversion Python performs when an [int] meets a [float] in an
    arithmetic operation; exact for the magnitudes below 2^53 used here. *)
Definition float_of_int (z : Z) : float :=
  match z with
  | Z0 => 0%float
  | Zpos _ => of_uint63 (Uint63.of_Z z)
  | Zneg p => (- of_uint63 (Uint63.of_Z (Zpos p)))%float
  end.

(** Python's [u > v] and [u >= v] on floats. *)
Definition gtb (u v : float) : bool := (v <? u)%float.
Definition geb (u v : float) : bool := (v <=? u)%float.

(** The built-ins [min(a, b)] and [max(a, b)]: the first argument is kept
    unless the second compares strictly below (above) it. *)
Definition py_min (a b : float) : float := if (b <? a)%float then b else a.
Definition py_max (a b : float) : float := if gtb b a then b else a.

(** [def clamp(v, a, b): return max(a, min(b, v))] *)
Definition clamp (v a b : float) : float := py_max a (py_min b v).

(** [math.hypot] on the arguments [apply_input] passes (each of -1, 0, 1),
    as the correctly rounded square root of the sum of the squares computed
    in binary64: there the sum of squares is exact, so this is the value
    [math.hypot] returns.  It is used for those arguments only. *)
Definition hypot (a b : float) : float := sqrt (a * a + b * b)%float.

(** [math.hypot] on arbitrary arguments.  Its result is the Euclidean norm
    up to the last bit, and that bit depends on the algorithm of the
    interpreter at hand; the collision test of [game_loop] compares it with a
    threshold, so the model takes the function as it is given. *)
Class MathLib := { math_hypot : float -> float -> float }.

(** The library used to run the sample runs.  Their distances are 0 or above
    200, against a threshold of 25, where every implementation of
    [math.hypot] gives the same comparison. *)
Definition sample_math : MathLib := {| math_hypot := hypot |}.

(** Truth value of a float: [bool(f)] is [f != 0.0]. *)
Definition float_truthy (f : float) : bool := negb (f =? 0)%float.

(** ** Colour palette *)

Definition palette : list string :=
  ["#2b85f0"; "#ff4d4f"; "#2bbf57"; "#f07f2b"; "#a02bf0"; "#f02b85"]%string.

(** [palette[(pid - 1) % len(palette)]]; Python's [%] with a positive
    modulus is the floor remainder, that is [Z.modulo]. *)
Definition get_color_for_pid (pid : Z) : string :=
  nth (Z.to_nat ((pid - 1) mod Z.of_nat (List.length palette))) palette ""%string.

(** ** Data model *)

(** A value of [players]: the dictionary [{ws, x, y, vx, vy, score, color}].
    The session handle [ws] is opaque and stands as a number. *)
Record Player := mkPlayer {
  ws : nat;
  x : float;
  y : float;
  vx : float;
  vy : float;
  score : Z;
  color : string
}.

(** The dictionary [{"x": .., "y": ..}] held by [coin]. *)
Record Coin := mkCoin { coin_x : float; coin_y : float }.

(** The module-level globals, and [loop_last], the local [last] of
    [game_loop] that survives from one iteration to the next. *)
Record State := mkState {
  players : list (Z * Player);
  next_pid : Z;
  coin : option Coin;
  game_active : bool;
  game_end_time : float;
  intermission_end : float;
  last_winner : option Z;
  loop_last : float
}.

(** The globals as the module initialises them; [t0] is the clock reading
    [last = time.time()] taken when [game_loop] starts. *)
Definition init (t0 : float) : State :=
  {| players := []; next_pid := 1; coin := None; game_active := false;
     game_end_time := 0; intermission_end := 0; last_winner := None;
     loop_last := t0 |}.

Definition set_players (ps : list (Z * Player)) (s : State) : State :=
  {| players := ps; next_pid := next_pid s; coin := coin s;
     game_active := game_active s; game_end_time := game_end_time s;
     intermission_end := intermission_end s; last_winner := last_winner s;
     loop_last := loop_last s |}.

Definition set_coin (c : option Coin) (s : State) : State :=
  {| players := players s; next_pid := next_pid s; coin := c;
     game_active := game_active s; game_end_time := game_end_time s;
     intermission_end := intermission_end s; last_winner := last_winner s;
     loop_last := loop_last s |}.

Definition set_loop_last (t : float) (s : State) : State :=
  {| players := players s; next_pid := next_pid s; coin := coin s;
     game_active := game_active s; game_end_time := game_end_time s;
     intermission_end := intermission_end s; last_winner := last_winner s;
     loop_last := t |}.

(** ** The insertion-ordered dictionary [players] *)

(** [pid in players] *)
Fixpoint dict_mem (k : Z) (d : list (Z * Player)) : bool :=
  match d with
  | [] => false
  | (k', _) :: rest => (k =? k') || dict_mem k rest
  end.

(** [players[k] = v]: an existing key keeps its place, a new key goes last. *)
Fixpoint dict_set (k : Z) (v : Player) (d : list (Z * Player)) : list (Z * Player) :=
  match d with
  | [] => [(k, v)]
  | (k', v') :: rest =>
      if k =? k' then (k', v) :: rest else (k', v') :: dict_set k v rest
  end.

(** [players.pop(k, None)] *)
Fixpoint dict_pop (k : Z) (d : list (Z * Player)) : list (Z * Player) :=
  match d with
  | [] => []
  | (k', v') :: rest =>
      if k =? k' then rest else (k', v') :: dict_pop k rest
  end.

(** In-place mutation of the dictionary stored under [k]:
    [players[k][field] = ...]. *)
Fixpoint dict_update (k : Z) (f : Player -> Player) (d : list (Z * Player))
  : list (Z * Player) :=
  match d with
  | [] => []
  | (k', v') :: rest =>
      if k =? k' then (k', f v') :: rest else (k', v') :: dict_update k f rest
  end.

Fixpoint dict_get (k : Z) (d : list (Z * Player)) : option Player :=
  match d with
  | [] => None
  | (k', v') :: rest => if k =? k' then Some v' else dict_get k rest
  end.

(** ** Decoded JSON values, as [json.loads] returns them *)

#[local] Set Warnings "-register-all".

Inductive pyval :=
| PNone
| PBool (b : bool)
| PInt (z : Z)
| PFloat (f : float)
| PStr (s : string)
| PList (l : list pyval)
| PDict (d : list (string * pyval)).

(** Truth value of a Python object, used by [-1 if left else 0]. *)
Definition truthy (v : pyval) : bool :=
  match v with
  | PNone => false
  | PBool b => b
  | PInt z => negb (z =? 0)
  | PFloat f => float_truthy f
  | PStr s => negb (String.eqb s "")
  | PList l => match l with [] => false | _ => true end
  | PDict d => match d with [] => false | _ => true end
  end.

(** [d.get(key, default)] on a decoded object. *)
Fixpoint py_get (d : list (string * pyval)) (key : string) (default : pyval) : pyval :=
  match d with
  | [] => default
  | (k, v) :: rest => if String.eqb key k then v else py_get rest key default
  end.

(** ** The coroutines, one function per uninterrupted stretch *)

(** What an uninterrupted stretch does: it finishes with a new state, or an
    exception leaves it. *)
Inductive PyError := AttributeError.

Inductive Result :=
| Ok (s : State)
| Raise (e : PyError).

(** [random.uniform] draws are inputs: [draw i] is the pair drawn for the
    [i]-th player met by the loop of [start_round]. *)
Definition Draws := nat -> float * float.

Definition respawn_player (xy : float * float) (p : Player) : Player :=
  {| ws := ws p; x := fst xy; y := snd xy; vx := 0; vy := 0; score := 0;
     color := color p |}.

(** The loop [for p in players.values()] of [start_round]. *)
Fixpoint respawn (draw : Draws) (i : nat) (ps : list (Z * Player)) : list (Z * Player) :=
  match ps with
  | [] => []
  | (pid, p) :: rest => (pid, respawn_player (draw i) p) :: respawn draw (S i) rest
  end.

(** [start_round]; [now] is its reading of [time.time()]. *)
Definition start_round (draw : Draws) (now : float) (s : State) : State :=
  {| players := respawn draw 0 (players s);
     next_pid := next_pid s;
     coin := None;
     game_active := true;
     game_end_time := (now + float_of_int GAME_DURATION)%float;
     intermission_end := 0;
     last_winner := None;
     loop_last := loop_last s |}.

(** The loop of [end_round] that looks for the winner: [best_pid] and
    [best_score] are the loop's two variables. *)
Fixpoint winner_loop (ps : list (Z * Player)) (best_pid : option Z) (best_score : Z)
  : option Z * Z :=
  match ps with
  | [] => (best_pid, best_score)
  | (pid, p) :: rest =>
      if score p >? best_score
      then winner_loop rest (Some pid) (score p)
      else winner_loop rest best_pid best_score
  end.

(** [end_round]; [now] is its reading of [time.time()]. *)
Definition end_round (now : float) (s : State) : State :=
  {| players := players s;
     next_pid := next_pid s;
     coin := None;
     game_active := false;
     game_end_time := game_end_time s;
     intermission_end := (now + float_of_int INTERMISSION)%float;
     last_winner :=
       match players s with
       | [] => None
       | _ :: _ => fst (winner_loop (players s) None (-1))
       end;
     loop_last := loop_last s |}.

(** [handle], from its first line to the first [await]: a new identifier,
    a new entry in [players].  [rx] and [ry] are the two draws of
    [random.uniform].  The function returns the identifier as well. *)
Definition handle_register (w : nat) (rx ry : float) (s : State) : Z * State :=
  let pid := next_pid s in
  let c := get_color_for_pid pid in
  let p := {| ws := w; x := rx; y := ry; vx := 0; vy := 0; score := 0; color := c |} in
  (pid, {| players := dict_set pid p (players s);
           next_pid := pid + 1;
           coin := coin s;
           game_active := game_active s;
           game_end_time := game_end_time s;
           intermission_end := intermission_end s;
           last_winner := last_winner s;
           loop_last := loop_last s |}).

(** [handle], after the welcome message is sent:
    [if not game_active and len(players) >= 1: await start_round()]. *)
Definition handle_auto_start (draw : Draws) (now : float) (s : State) : State :=
  if negb (game_active s) && (1 <=? Z.of_nat (List.length (players s)))
  then start_round draw now s
  else s.

(** [handle], its [finally] clause: [players.pop(pid, None)]. *)
Definition handle_finally (pid : Z) (s : State) : State :=
  set_players (dict_pop pid (players s)) s.

(** One firing of the loop of [spawn_coin]; [rx], [ry] are its draws. *)
Definition spawn_coin (rx ry : float) (s : State) : State :=
  match game_active s, coin s with
  | true, None => set_coin (Some {| coin_x := rx; coin_y := ry |}) s
  | _, _ => s
  end.

(** [(-1 if neg else 0) + (1 if pos else 0)] *)
Definition axis (neg pos : pyval) : Z :=
  (if truthy neg then -1 else 0) + (if truthy pos then 1 else 0).

(** The velocity [apply_input] computes from the four values it reads. *)
Definition input_velocity (up down left right : pyval) : float * float :=
  let ivx := axis left right in
  let ivy := axis up down in
  if negb (ivx =? 0) || negb (ivy =? 0)
  then
    let d := hypot (float_of_int ivx) (float_of_int ivy) in
    ((float_of_int ivx / d)%float, (float_of_int ivy / d)%float)
  else (float_of_int ivx, float_of_int ivy).

Definition set_velocity (v : float * float) (p : Player) : Player :=
  {| ws := ws p; x := x p; y := y p; vx := fst v; vy := snd v; score := score p;
     color := color p |}.

(** [apply_input], after its [await asyncio.sleep(LATENCY)].  Only a decoded
    object has the method [get]; on any other value [data.get] raises. *)
Definition apply_input (pid : Z) (data : pyval) (s : State) : Result :=
  if negb (dict_mem pid (players s)) then Ok s
  else
    match data with
    | PDict d =>
        let up := py_get d "up" (PBool false) in
        let down := py_get d "down" (PBool false) in
        let left := py_get d "left" (PBool false) in
        let right := py_get d "right" (PBool false) in
        Ok (set_players
              (dict_update pid (set_velocity (input_velocity up down left right))
                 (players s)) s)
    | _ => Raise AttributeError
    end.

(** *** One iteration of [game_loop] *)

Section Game.

Context {lib : MathLib}.

(** The body of [for p in players.values()] that integrates the motion. *)
Definition move_player (dt : float) (p : Player) : Player :=
  let x1 := (x p + vx p * float_of_int PLAYER_SPEED * dt)%float in
  let y1 := (y p + vy p * float_of_int PLAYER_SPEED * dt)%float in
  {| ws := ws p;
     x := clamp x1 (float_of_int PLAYER_R) (float_of_int (MAP_W - PLAYER_R));
     y := clamp y1 (float_of_int PLAYER_R) (float_of_int (MAP_H - PLAYER_R));
     vx := vx p; vy := vy p; score := score p; color := color p |}.

Definition integrate (dt : float) (ps : list (Z * Player)) : list (Z * Player) :=
  map (fun kp => (fst kp, move_player dt (snd kp))) ps.

(** The test of the collision loop:
    [math.hypot(p["x"] - coin["x"], p["y"] - coin["y"]) <= PLAYER_R + COIN_R]. *)
Definition touches (c : Coin) (p : Player) : bool :=
  (math_hypot (x p - coin_x c) (y p - coin_y c) <=? float_of_int (PLAYER_R + COIN_R))%float.

Definition add_point (p : Player) : Player :=
  {| ws := ws p; x := x p; y := y p; vx := vx p; vy := vy p; score := score p + 1;
     color := color p |}.

(** The collision loop, entered with a coin [c]: the players after the loop
    and the value of [coin] after it ([None] when the loop left by [break]). *)
Fixpoint collision_loop (c : Coin) (ps : list (Z * Player))
  : list (Z * Player) * option Coin :=
  match ps with
  | [] => ([], Some c)
  | (pid, p) :: rest =>
      if touches c p then ((pid, add_point p) :: rest, None)
      else let r := collision_loop c rest in ((pid, p) :: fst r, snd r)
  end.

(** [if coin: ...] of [game_loop]. *)
Definition coin_collision (s : State) : State :=
  match coin s with
  | Some c =>
      let r := collision_loop c (players s) in
      set_coin (snd r) (set_players (fst r) s)
  | None => s
  end.

(** The two steps of an iteration during a round: motion, then collision. *)
Definition simulate (dt : float) (s : State) : State :=
  coin_collision (set_players (integrate dt (players s)) s).

(** One iteration of [while True] in [game_loop], up to [await broadcast()].
    [now] is the reading of the clock at the top of the iteration, [t_check]
    the reading in the test of the deadline, [t_round] the reading inside
    [end_round] or [start_round], [draw] the draws of [start_round]. *)
Definition game_loop_iter (now t_check t_round : float) (draw : Draws) (s : State)
  : State :=
  let dt := (now - loop_last s)%float in
  let s0 := set_loop_last now s in
  if game_active s0 then
    let s2 := simulate dt s0 in
    if geb t_check (game_end_time s2) then end_round t_round s2 else s2
  else
    if float_truthy (intermission_end s0)
       && geb t_check (intermission_end s0)
       && match players s0 with [] => false | _ :: _ => true end
    then start_round draw t_round s0
    else s0.

(** ** The scheduler's interleavings *)

Inductive Event :=
| Connect (w : nat) (rx ry : float)
| AutoStart (draw : Draws) (now : float)
| Disconnect (pid : Z)
| Input (pid : Z) (data : pyval)
| SpawnCoin (rx ry : float)
| Tick (now t_check t_round : float) (draw : Draws).

(** An exception raised inside the task of [apply_input] ends that task and
    leaves the globals as they are. *)
Definition step (s : State) (e : Event) : State :=
  match e with
  | Connect w rx ry => snd (handle_register w rx ry s)
  | AutoStart draw now => handle_auto_start draw now s
  | Disconnect pid => handle_finally pid s
  | Input pid data => match apply_input pid data s with Ok s' => s' | Raise _ => s end
  | SpawnCoin rx ry => spawn_coin rx ry s
  | Tick now t_check t_round draw => game_loop_iter now t_check t_round draw s
  end.

Definition run (s : State) (es : list Event) : State := fold_left step es s.

(** The identifiers handed out along a run, oldest first. *)
Fixpoint issued (s : State) (es : list Event) : list Z :=
  match es with
  | [] => []
  | Connect w rx ry :: rest =>
      fst (handle_register w rx ry s) :: issued (step s (Connect w rx ry)) rest
  | e :: rest => issued (step s e) rest
  end.

(** The contract of [random.uniform(a, b)]: the draw [r] satisfies
    [a <= r <= b]. *)
Definition between (a b : Z) (r : float) : Prop :=
  (float_of_int a <=? r)%float = true /\ (r <=? float_of_int b)%float = true.

Definition spawn_draw (xy : float * float) : Prop :=
  between 50 (MAP_W - 50) (fst xy) /\ between 50 (MAP_H - 50) (snd xy).

(** What the environment may feed an event: draws within the bounds given
    to [random.uniform]; clock readings and messages are arbitrary. *)
Definition env_ok (e : Event) : Prop :=
  match e with
  | Connect _ rx ry => spawn_draw (rx, ry)
  | AutoStart draw _ => forall i, spawn_draw (draw i)
  | Tick _ _ _ draw => forall i, spawn_draw (draw i)
  | SpawnCoin rx ry => between 20 (MAP_W - 20) rx /\ between 20 (MAP_H - 20) ry
  | Disconnect _ | Input _ _ => True
  end.

Inductive reachable : State -> Prop :=
| reach_init : forall t0, reachable (init t0)
| reach_step : forall s e, reachable s -> env_ok e -> reachable (step s e).

(** ** Notions used in the statements *)

Definition keys (ps : list (Z * Player)) : list Z := map fst ps.

(** A predicate on the values of the dictionary. *)
Definition all_players (P : Player -> Prop) (ps : list (Z * Player)) : Prop :=
  Forall (fun kp => P (snd kp)) ps.

(** What every state between two suspension points satisfies: identifiers
    appear in increasing order, all of them below [next_pid], and no score
    is negative. *)
Record registry_ok (s : State) : Prop := {
  ok_sorted : StronglySorted Z.lt (keys (players s));
  ok_below : Forall (fun k => 1 <= k < next_pid s) (keys (players s));
  ok_next : 1 <= next_pid s;
  ok_scores : all_players (fun p => 0 <= score p) (players s)
}.

Definition in_bounds (p : Player) : Prop :=
  between PLAYER_R (MAP_W - PLAYER_R) (x p) /\
  between PLAYER_R (MAP_H - PLAYER_R) (y p).

(** The number of connections in a run. *)
Fixpoint connects (es : list Event) : nat :=
  match es with
  | [] => 0
  | Connect _ _ _ :: rest => S (connects rest)
  | _ :: rest => connects rest
  end.

Definition coin_count (s : State) : nat :=
  match coin s with None => 0 | Some _ => 1 end.

Definition scores (ps : list (Z * Player)) : list Z := map (fun kp => score (snd kp)) ps.

(** ** Sample runs *)

(** A run used to exercise the theorems: two players connect, the round
    starts, each collects one coin. *)
Definition demo_draws : Draws := fun _ => (100%float, 100%float).

Definition demo_events : list Event :=
  [Connect 0 100 100; AutoStart demo_draws 0; Connect 1 300 300;
   SpawnCoin 300 300; Tick 1 1 1 demo_draws;
   SpawnCoin 100 100; Tick 2 2 2 demo_draws].

Definition demo_state : State := run (init 0) demo_events.

(** Two players on the same spot and a coin under them: only the first
    registered one scores. *)
Definition crowd_events : list Event :=
  [Connect 0 100 100; AutoStart demo_draws 0; Connect 1 100 100; SpawnCoin 100 100].

Definition crowd_state : State := run (init 0) crowd_events.

(** A player who was moving diagonally when the round is restarted. *)
Definition moving_state : State :=
  step demo_state (Input 2 (PDict [("down", PBool true); ("left", PBool true)]%string)).

(** The state a round leaves behind: the demonstration run, then an
    iteration of the loop at time 200, past the end of the round that
    began at time 0.  One more player connects at time 201, nine seconds
    before the intermission is over. *)
Definition intermission_state : State :=
  game_loop_iter 200 200 200 demo_draws demo_state.

Definition early_registration : State :=
  step (step intermission_state (Connect 2 100 100)) (AutoStart demo_draws 201).

(** ** The rest of [handle]: the messages of a connection *)

(** What [json.loads(msg)] does: it returns a decoded value, raises
    [json.JSONDecodeError], the only exception the loop catches, or raises
    another exception, given by the name of its class ([ValueError] for an
    integer beyond the digit limit, [UnicodeDecodeError] for a binary frame
    that is not text, [RecursionError] for nesting too deep). *)
Inductive Loaded :=
| Decoded (v : pyval)
| JSONDecodeError
| OtherException (name : string).

(** [v == s] for a decoded value [v] and a string literal [s]. *)
Definition eq_str (v : pyval) (s : string) : bool :=
  match v with
  | PStr t => String.eqb t s
  | _ => false
  end.

(** [d[key]]: the value, or nothing where Python raises [KeyError]. *)
Fixpoint py_item (d : list (string * pyval)) (key : string) : option pyval :=
  match d with
  | [] => None
  | (k, v) :: rest => if String.eqb key k then Some v else py_item rest key
  end.

(** The exceptions that leave the body of [async for msg in ws] uncaught. *)
Inductive LoopError :=
| LoopAttributeError
| LoopKeyError
| LoopOther (name : string).

(** What one message does to the loop. *)
Inductive Handled :=
| Task (pid : Z) (data : pyval)
| Skipped
| Warned
| Escaped (e : LoopError).

(** The body of [async for msg in ws]: [Task pid v] stands for
    [asyncio.create_task(apply_input(pid, data["input"]))], [Warned] for
    the warning logged on invalid JSON. *)
Definition handle_message (pid : Z) (m : Loaded) : Handled :=
  match m with
  | JSONDecodeError => Warned
  | OtherException name => Escaped (LoopOther name)
  | Decoded (PDict d) =>
      if eq_str (py_get d "type" PNone) "input"
      then match py_item d "input" with
           | Some v => Task pid v
           | None => Escaped LoopKeyError
           end
      else Skipped
  | Decoded _ => Escaped LoopAttributeError
  end.

(** The loop over the messages a connection delivers before it closes: the
    tasks created, in order, and the exception that ended the loop early, if
    one did. *)
Fixpoint handle_loop (pid : Z) (msgs : list Loaded) : list (Z * pyval) * option LoopError :=
  match msgs with
  | [] => ([], None)
  | m :: rest =>
      match handle_message pid m with
      | Task p v => let r := handle_loop pid rest in ((p, v) :: fst r, snd r)
      | Skipped | Warned => handle_loop pid rest
      | Escaped e => ([], Some e)
      end
  end.

(** ** [broadcast] *)

(** [int(f)] on a float: truncation toward zero; [ValueError] on a NaN and
    [OverflowError] on an infinity. *)
Inductive IntError := ValueError | OverflowError.

Inductive IntResult :=
| IntVal (z : Z)
| IntRaise (e : IntError).

Definition int_of_float (f : float) : IntResult :=
  match Prim2SF f with
  | S754_zero _ => IntVal 0
  | S754_nan => IntRaise ValueError
  | S754_infinity _ => IntRaise OverflowError
  | S754_finite sign m e =>
      let magnitude := Z.shiftl (Zpos m) e in
      IntVal (if sign then - magnitude else magnitude)
  end.

(** [max(0, n)] on integers. *)
Definition py_max_int (a b : Z) : Z := if b >? a then b else a.

(** The [time_left] of [broadcast]; [now] is its reading of the clock. *)
Definition time_left (now : float) (s : State) : IntResult :=
  if game_active s then
    match int_of_float (game_end_time s - now)%float with
    | IntVal n => IntVal (py_max_int 0 n)
    | IntRaise e => IntRaise e
    end
  else
    if gtb (intermission_end s) now then
      match int_of_float (intermission_end s - now)%float with
      | IntVal n => IntVal (py_max_int 0 n)
      | IntRaise e => IntRaise e
      end
    else IntVal 0.

(** A player as the snapshot shows it. *)
Record PlayerView := mkView {
  view_x : float;
  view_y : float;
  view_score : Z;
  view_color : string
}.

(** The dictionary [state] that [broadcast] serialises.  The keys of its
    [players] are [str(pid)]; they stand here as the identifiers. *)
Record Snapshot := mkSnapshot {
  snap_players : list (Z * PlayerView);
  snap_coin : option Coin;
  snap_time_left : Z;
  snap_game_active : bool;
  snap_game_duration : Z;
  snap_last_winner : option Z
}.

Definition view (p : Player) : PlayerView :=
  {| view_x := x p; view_y := y p; view_score := score p; view_color := color p |}.

(** What a call of [broadcast] does: nothing, or one delayed delivery per
    session, or an exception of [int]. *)
Inductive Broadcast :=
| NothingSent
| Sent (deliveries : list (nat * Snapshot))
| BroadcastRaise (e : IntError).

Definition broadcast (now : float) (s : State) : Broadcast :=
  match players s with
  | [] => NothingSent
  | _ :: _ =>
      match time_left now s with
      | IntRaise e => BroadcastRaise e
      | IntVal t =>
          let state :=
            {| snap_players := map (fun kp => (fst kp, view (snd kp))) (players s);
               snap_coin := coin s;
               snap_time_left := t;
               snap_game_active := game_active s;
               snap_game_duration := GAME_DURATION;
               snap_last_winner := last_winner s |} in
          Sent (map (fun kp => (ws (snd kp), state)) (players s))
      end
  end.

(** The delay [game_loop] sleeps at the end of an iteration:
    [max(0, 1 / TICK_RATE - (time.time() - now))]; [t] is the reading of
    the clock there. *)
Definition tick_sleep (now t : float) : float :=
  py_max 0 (float_of_int 1 / float_of_int TICK_RATE - (t - now))%float.

(** ** More notions used in the statements *)

(** A velocity of length 0, or of length 1 up to the last bit. *)
Definition unit_or_zero (p : Player) : Prop :=
  hypot (vx p) (vy p) = 0%float \/
  (abs (hypot (vx p) (vy p) - 1) <=? 0x1p-52)%float = true.

(** A predicate on identifier and player that holds of every entry. *)
Definition entries (Q : Z -> Player -> Prop) (ps : list (Z * Player)) : Prop :=
  Forall (fun kp => Q (fst kp) (snd kp)) ps.

(** What of a player an input leaves alone. *)
Definition body (p : Player) : nat * float * float * Z * string :=
  (ws p, x p, y p, score p, color p).

(** The globals other than [players]. *)
Definition globals (s : State)
  : Z * option Coin * bool * float * float * option Z * float :=
  (next_pid s, coin s, game_active s, game_end_time s, intermission_end s,
   last_winner s, loop_last s).

(** The player [handle] creates for identifier [pid]. *)
Definition new_player (w : nat) (rx ry : float) (pid : Z) : Player :=
  {| ws := w; x := rx; y := ry; vx := 0; vy := 0; score := 0;
     color := get_color_for_pid pid |}.

(** A message loop's input: one fatal message among harmless ones. *)
Definition chatter : list Loaded :=
  [Decoded (PDict [("type", PStr "input"); ("input", PDict [("up", PBool true)])]);
   JSONDecodeError;
   Decoded (PDict [("type", PStr "ping")]);
   Decoded (PList [PInt 1]);
   Decoded (PDict [("type", PStr "input"); ("input", PDict [("down", PBool true)])])]%string.

(** ** Proof steps shared by the lemmas *)

(** One case per kind of event, with the names the proofs use. *)
Ltac event_cases e :=
  destruct e as [w rx ry|draw now|pid|pid data|rx ry|now tc tr draw].

(** * Properties *)

(** ** Floating-point comparisons *)

Section FloatOrder.

Local Open Scope float_scope.

Lemma ltb_leb (u v : float) : (u <? v) = true -> (u <=? v) = true.
Proof.
  rewrite ltb_spec, leb_spec. unfold SFltb, SFleb.
  destruct (SFcompare (Prim2SF u) (Prim2SF v)) as [[]|]; congruence.
Qed.

Lemma SFleb_trans (a b c : spec_float) :
  SFleb a b = true -> SFleb b c = true -> SFleb a c = true.
Proof.
  unfold SFleb.
  destruct a as [sa|sa| |sa ma ea], b as [sb|sb| |sb mb eb], c as [sc|sc| |sc mc ec];
    simpl; try congruence;
    try (destruct sa; congruence); try (destruct sb; congruence);
    try (destruct sc; congruence);
    try (destruct sa, sb; congruence); try (destruct sb, sc; congruence);
    try (destruct sa, sc; congruence);
    try (destruct sa, sb, sc; congruence).
  change (PosDef.Pos.compare_cont Eq) with Pos.compare.
  destruct sa, sb, sc; try congruence;
    destruct (Z.compare_spec ea eb), (Z.compare_spec eb ec), (Z.compare_spec ea ec);
    try congruence; try lia; subst;
    destruct (Pos.compare_spec ma mb), (Pos.compare_spec mb mc),
      (Pos.compare_spec ma mc); simpl; try congruence; try lia.
Qed.

Lemma leb_trans (u v w : float) :
  (u <=? v) = true -> (v <=? w) = true -> (u <=? w) = true.
Proof. rewrite !leb_spec. apply SFleb_trans. Qed.

(** [clamp] lands in the interval whatever it is given, a NaN included,
    as soon as the interval's ends are ordered numbers. *)
Lemma clamp_between (v lo hi : float) :
  (lo <=? lo) = true -> (hi <=? hi) = true -> (lo <=? hi) = true ->
  (lo <=? clamp v lo hi) = true /\ (clamp v lo hi <=? hi) = true.
Proof.
  intros Hlo Hhi Hlh. unfold clamp, py_max, py_min, gtb.
  destruct (v <? hi) eqn:Hv.
  - destruct (lo <? v) eqn:Hl; auto using ltb_leb.
  - destruct (lo <? hi) eqn:Hl; auto.
Qed.

Example clamp_inside : clamp 100 15 785 = 100%float.
Proof. reflexivity. Qed.

Example clamp_below : clamp (-3) 15 785 = 15%float.
Proof. reflexivity. Qed.

Example clamp_above : clamp infinity 15 785 = 785%float.
Proof. reflexivity. Qed.

Example clamp_nan : clamp nan 15 785 = 785%float.
Proof. reflexivity. Qed.

End FloatOrder.

(** ** The registry: keys and values under each operation *)

Section RegistryLemmas.

Variable P : Player -> Prop.

Lemma keys_respawn draw i ps : keys (respawn draw i ps) = keys ps.
Proof.
  revert i. induction ps as [|[k p] ps IH]; intros i; simpl; [reflexivity|].
  now rewrite IH.
Qed.

Lemma keys_integrate dt ps : keys (integrate dt ps) = keys ps.
Proof. unfold keys, integrate. rewrite map_map. reflexivity. Qed.

Lemma keys_collision c ps : keys (fst (collision_loop c ps)) = keys ps.
Proof.
  induction ps as [|[k p] ps IH]; simpl; [reflexivity|].
  destruct (touches c p); simpl; [reflexivity|]. now rewrite IH.
Qed.

Lemma keys_update k f ps : keys (dict_update k f ps) = keys ps.
Proof.
  induction ps as [|[k' p] ps IH]; simpl; [reflexivity|].
  destruct (k =? k'); simpl; [reflexivity|]. now rewrite IH.
Qed.

Lemma dict_set_fresh k v ps :
  Forall (fun k' => k' < k) (keys ps) -> dict_set k v ps = ps ++ [(k, v)].
Proof.
  induction ps as [|[k' p] ps IH]; simpl; intros H; [reflexivity|].
  inversion H as [|? ? Hk Hrest]; subst.
  destruct (Z.eqb_spec k k') as [->|_]; [lia|].
  now rewrite IH.
Qed.

Lemma sorted_snoc l k :
  StronglySorted Z.lt l -> Forall (fun k' => k' < k) l ->
  StronglySorted Z.lt (l ++ [k]).
Proof.
  induction l as [|a l IH]; simpl; intros Hs Hf.
  - constructor; constructor.
  - apply StronglySorted_inv in Hs as [Hs Ha]. inversion Hf; subst.
    constructor; [auto|]. apply Forall_app. split; [assumption|].
    constructor; [assumption|constructor].
Qed.

Lemma keys_pop_Forall (Q : Z -> Prop) k ps :
  Forall Q (keys ps) -> Forall Q (keys (dict_pop k ps)).
Proof.
  induction ps as [|[k' p] ps IH]; simpl; intros H; [constructor|].
  inversion H; subst. destruct (k =? k'); simpl; auto.
Qed.

Lemma keys_pop_sorted k ps :
  StronglySorted Z.lt (keys ps) -> StronglySorted Z.lt (keys (dict_pop k ps)).
Proof.
  induction ps as [|[k' p] ps IH]; simpl; intros H; [constructor|].
  apply StronglySorted_inv in H as [Hs Hf].
  destruct (k =? k'); simpl; [assumption|].
  constructor; [auto|]. now apply keys_pop_Forall.
Qed.

Lemma all_respawn draw i ps :
  (forall xy p, (exists j, xy = draw j) -> P (respawn_player xy p)) ->
  all_players P (respawn draw i ps).
Proof.
  intros HP. revert i.
  induction ps as [|[k p] ps IH]; intros i; simpl; constructor; simpl; eauto.
  apply IH.
Qed.

Lemma all_integrate dt ps :
  (forall p, P p -> P (move_player dt p)) ->
  all_players P ps -> all_players P (integrate dt ps).
Proof.
  intros HP H. unfold all_players, integrate. rewrite Forall_map.
  eapply Forall_impl; [|exact H]. simpl. auto.
Qed.

Lemma all_collision c ps :
  (forall p, P p -> P (add_point p)) ->
  all_players P ps -> all_players P (fst (collision_loop c ps)).
Proof.
  intros HP. induction ps as [|[k p] ps IH]; simpl; intros H; [constructor|].
  inversion H; subst. destruct (touches c p); simpl; constructor; simpl; auto.
  now apply IH.
Qed.

Lemma all_update k f ps :
  (forall p, P p -> P (f p)) ->
  all_players P ps -> all_players P (dict_update k f ps).
Proof.
  intros HP. induction ps as [|[k' p] ps IH]; simpl; intros H; [constructor|].
  inversion H; subst. destruct (k =? k'); constructor; simpl; auto.
  now apply IH.
Qed.

Lemma all_pop k ps : all_players P ps -> all_players P (dict_pop k ps).
Proof.
  induction ps as [|[k' p] ps IH]; simpl; intros H; [constructor|].
  inversion H; subst. destruct (k =? k'); [assumption|].
  constructor; simpl; auto. now apply IH.
Qed.

Lemma all_set k v ps : P v -> all_players P ps -> all_players P (dict_set k v ps).
Proof.
  intros Hv. induction ps as [|[k' p] ps IH]; simpl; intros H.
  - constructor; [assumption|constructor].
  - inversion H; subst. destruct (k =? k'); constructor; simpl; auto.
    now apply IH.
Qed.

End RegistryLemmas.

Lemma registry_ok_init t0 : registry_ok (init t0).
Proof. split; simpl; try constructor; lia. Qed.

Lemma registry_ok_start_round draw now s :
  registry_ok s -> registry_ok (start_round draw now s).
Proof.
  intros [Hs Hb Hn Hsc]. split; simpl; rewrite ?keys_respawn; auto.
  apply all_respawn. intros; simpl; lia.
Qed.

Lemma registry_ok_end_round now s : registry_ok s -> registry_ok (end_round now s).
Proof. intros [Hs Hb Hn Hsc]. split; simpl; auto. Qed.

Lemma registry_ok_simulate dt s : registry_ok s -> registry_ok (simulate dt s).
Proof.
  intros [Hs Hb Hn Hsc]. unfold simulate, coin_collision. simpl.
  assert (Hi : all_players (fun p => 0 <= score p) (integrate dt (players s)))
    by (apply all_integrate; auto).
  destruct (coin s); split; simpl;
    rewrite ?keys_collision, ?keys_integrate; auto.
  apply all_collision; auto. intros p Hp. simpl. lia.
Qed.

Lemma registry_ok_step s e : registry_ok s -> registry_ok (step s e).
Proof.
  intros Hok. event_cases e; simpl.
  - destruct Hok as [Hs Hb Hn Hsc].
    assert (Hlt : Forall (fun k' => k' < next_pid s) (keys (players s)))
      by (eapply Forall_impl; [|exact Hb]; simpl; intros; lia).
    split; simpl.
    + rewrite dict_set_fresh by assumption. unfold keys. rewrite map_app.
      now apply sorted_snoc.
    + rewrite dict_set_fresh by assumption. unfold keys. rewrite map_app.
      apply Forall_app. split.
      * eapply Forall_impl; [|exact Hb]. simpl. intros; lia.
      * simpl. constructor; [lia|constructor].
    + lia.
    + apply all_set; simpl; [lia|assumption].
  - unfold handle_auto_start.
    destruct (negb (game_active s) && _); auto using registry_ok_start_round.
  - destruct Hok as [Hs Hb Hn Hsc]. unfold handle_finally. split; simpl.
    + now apply keys_pop_sorted.
    + now apply keys_pop_Forall.
    + assumption.
    + now apply all_pop.
  - unfold apply_input. destruct (negb (dict_mem pid (players s))); [assumption|].
    destruct data; try assumption.
    destruct Hok as [Hs Hb Hn Hsc]. split; simpl; rewrite ?keys_update; auto.
    apply all_update; auto.
  - unfold spawn_coin. destruct (game_active s); [|assumption].
    destruct (coin s); [assumption|]. destruct Hok. split; assumption.
  - unfold game_loop_iter. simpl.
    assert (Hok0 : registry_ok (set_loop_last now s))
      by (destruct Hok; split; assumption).
    destruct (game_active s).
    + pose proof (registry_ok_simulate (now - loop_last s)%float _ Hok0) as H2.
      destruct (geb tc _); auto using registry_ok_end_round.
    + destruct (float_truthy _ && _ && _); auto using registry_ok_start_round.
Qed.

Lemma reachable_registry_ok s : reachable s -> registry_ok s.
Proof.
  induction 1; [apply registry_ok_init | now apply registry_ok_step].
Qed.

Lemma reachable_run s es : reachable s -> Forall env_ok es -> reachable (run s es).
Proof.
  intros Hs Hes. revert s Hs. unfold run.
  induction Hes as [|e es He _ IH]; intros s Hs; simpl; [assumption|].
  apply IH. now constructor.
Qed.

(** ** The winner of a round *)

(** What the loop of [end_round] computes from any starting pair: either no
    score beats [best_score] and the pair is returned as it was, or the
    result is the first entry holding the greatest score. *)
Lemma winner_loop_spec ps : forall best_pid best_score,
  (Forall (fun kp => score (snd kp) <= best_score) ps /\
   winner_loop ps best_pid best_score = (best_pid, best_score)) \/
  (exists l1 pid p l2,
     ps = l1 ++ (pid, p) :: l2 /\
     winner_loop ps best_pid best_score = (Some pid, score p) /\
     best_score < score p /\
     Forall (fun kp => score (snd kp) < score p) l1 /\
     Forall (fun kp => score (snd kp) <= score p) l2).
Proof.
  induction ps as [|[k p] ps IH]; intros bp bs; simpl.
  - left. split; [constructor|reflexivity].
  - destruct (Z.gtb_spec (score p) bs) as [Hgt|Hle].
    + right. destruct (IH (Some k) (score p)) as [[Hall Heq]|(l1 & pid & q & l2 & Hps & Heq & Hlt & H1 & H2)].
      * exists [], k, p, ps. simpl. repeat split; auto; lia.
      * exists ((k, p) :: l1), pid, q, l2. subst ps. simpl.
        repeat split; auto; try lia.
    + destruct (IH bp bs) as [[Hall Heq]|(l1 & pid & q & l2 & Hps & Heq & Hlt & H1 & H2)].
      * left. split; [constructor; simpl; [lia|assumption]|assumption].
      * right. exists ((k, p) :: l1), pid, q, l2. subst ps. simpl.
        repeat split; auto. constructor; simpl; [lia|assumption].
Qed.

Lemma sorted_after l1 (pid : Z) (p : Player) l2 :
  StronglySorted Z.lt (keys (l1 ++ (pid, p) :: l2)) ->
  Forall (fun kp => pid < fst kp) l2.
Proof.
  induction l1 as [|[k q] l1 IH]; simpl; intros H;
    apply StronglySorted_inv in H as [Hs Hf]; [|auto].
  unfold keys in Hf. now rewrite Forall_map in Hf.
Qed.

Lemma game_end_time_simulate dt s : game_end_time (simulate dt s) = game_end_time s.
Proof. unfold simulate, coin_collision. simpl. now destruct (coin s). Qed.

Lemma game_active_simulate dt s : game_active (simulate dt s) = game_active s.
Proof. unfold simulate, coin_collision. simpl. now destruct (coin s). Qed.

(** C1. Whenever an iteration of [game_loop] of a reachable state calls
    [end_round] (the round is on and the clock has reached
    [game_end_time]), the state [s2] it is called on determines
    [last_winner]: unset when nobody is connected; otherwise the identifier
    of a connected player whose score no other player exceeds, who comes
    first in the registry among the players with that score (everyone before
    has a strictly lower score), and whose identifier is the lowest among
    the players tied with that score. *)
Theorem end_round_picks_first_best :
  forall s now t_check t_round draw,
    reachable s ->
    game_active s = true ->
    geb t_check (game_end_time s) = true ->
    let s2 := simulate (now - loop_last s)%float (set_loop_last now s) in
    game_loop_iter now t_check t_round draw s = end_round t_round s2 /\
    (players s2 = [] -> last_winner (end_round t_round s2) = None) /\
    (players s2 <> [] ->
     exists pid p l1 l2,
       last_winner (end_round t_round s2) = Some pid /\
       players s2 = l1 ++ (pid, p) :: l2 /\
       Forall (fun kp => score (snd kp) < score p) l1 /\
       (forall q pq, In (q, pq) (players s2) ->
          score pq <= score p /\ (score pq = score p -> pid <= q))).
Proof.
  intros s now tc tr draw Hr Hact Hend s2.
  assert (Hok : registry_ok s2).
  { apply registry_ok_simulate. destruct (reachable_registry_ok s Hr).
    split; assumption. }
  split; [|split].
  - unfold game_loop_iter. simpl. rewrite Hact.
    fold s2. unfold s2 at 1. rewrite game_end_time_simulate. simpl.
    now rewrite Hend.
  - intros Hnil. simpl. now rewrite Hnil.
  - intros Hne. simpl.
    destruct (players s2) as [|kp0 ps0] eqn:Hps; [congruence|].
    rewrite <- Hps in *. clear Hne.
    destruct (winner_loop_spec (players s2) None (-1))
      as [[Hall _]|(l1 & pid & p & l2 & Hsplit & Heq & Hlt & H1 & H2)].
    + exfalso. destruct Hok as [_ _ _ Hsc]. rewrite Hps in Hall, Hsc.
      inversion Hall; inversion Hsc; subst. lia.
    + exists pid, p, l1, l2. rewrite Heq. simpl.
      repeat split; auto.
      * rewrite Hsplit in H. apply in_app_or in H as [Hin|[Hin|Hin]].
        -- rewrite Forall_forall in H1. specialize (H1 _ Hin). simpl in H1. lia.
        -- inversion Hin; subst. lia.
        -- rewrite Forall_forall in H2. now specialize (H2 _ Hin).
      * intros Htie. rewrite Hsplit in H. apply in_app_or in H as [Hin|[Hin|Hin]].
        -- rewrite Forall_forall in H1. specialize (H1 _ Hin). simpl in H1. lia.
        -- inversion Hin; subst. lia.
        -- destruct Hok as [Hs _ _ _]. rewrite Hsplit in Hs.
           apply sorted_after in Hs. rewrite Forall_forall in Hs.
           specialize (Hs _ Hin). simpl in Hs. lia.
Qed.

Lemma demo_events_ok : Forall env_ok demo_events.
Proof. repeat constructor. Qed.

Lemma demo_reachable : reachable demo_state.
Proof. apply reachable_run; [constructor | exact demo_events_ok]. Defined.

(** ** Positions stay on the map *)

Lemma between_widen a b a' b' r :
  (float_of_int a' <=? float_of_int a)%float = true ->
  (float_of_int b <=? float_of_int b')%float = true ->
  between a b r -> between a' b' r.
Proof.
  intros Ha Hb [H1 H2]. split; eauto using leb_trans.
Qed.

Lemma spawn_draw_in_bounds xy p : spawn_draw xy -> in_bounds (respawn_player xy p).
Proof.
  intros [Hx Hy]. split; simpl.
  - eapply between_widen; [| |exact Hx]; reflexivity.
  - eapply between_widen; [| |exact Hy]; reflexivity.
Qed.

Lemma move_player_in_bounds dt p : in_bounds (move_player dt p).
Proof. split; simpl; apply clamp_between; reflexivity. Qed.

Lemma in_bounds_step s e :
  env_ok e -> all_players in_bounds (players s) ->
  all_players in_bounds (players (step s e)).
Proof.
  intros He H.
  event_cases e; simpl in *.
  - apply all_set; [|assumption].
    apply (spawn_draw_in_bounds (rx, ry)
             {| ws := w; x := rx; y := ry; vx := 0; vy := 0; score := 0;
                color := get_color_for_pid (next_pid s) |} He).
  - unfold handle_auto_start. destruct (negb (game_active s) && _); [|assumption].
    simpl. apply all_respawn. intros xy p [j ->]. now apply spawn_draw_in_bounds.
  - now apply all_pop.
  - unfold apply_input. destruct (negb (dict_mem pid (players s))); [assumption|].
    destruct data; try assumption. simpl. apply all_update; [|assumption].
    intros p Hp. exact Hp.
  - unfold spawn_coin. destruct (game_active s); [|assumption].
    now destruct (coin s).
  - unfold game_loop_iter. simpl. destruct (game_active s).
    + assert (H2 : all_players in_bounds
                     (players (simulate (now - loop_last s)%float (set_loop_last now s)))).
      { unfold simulate, coin_collision. simpl.
        assert (Hi : all_players in_bounds (integrate (now - loop_last s)%float (players s))).
        { apply all_integrate; [|assumption]. intros; apply move_player_in_bounds. }
        destruct (coin s); simpl; [|assumption].
        apply all_collision; [|assumption]. intros p Hp. exact Hp. }
      destruct (geb tc _); assumption.
    + destruct (float_truthy _ && _ && _); [|assumption].
      simpl. apply all_respawn. intros xy p [j ->]. now apply spawn_draw_in_bounds.
Qed.

(** C2. In every reachable state every player stands within the map,
    a radius away from each edge:
    [PLAYER_R <= x <= MAP_W - PLAYER_R] and [PLAYER_R <= y <= MAP_H - PLAYER_R],
    the comparisons being those of binary64 numbers.  Reachable states are
    those after any number of connections, disconnections, inputs, coin
    spawns and iterations of the game loop. *)
Theorem position_within_map :
  forall s, reachable s ->
  forall pid p, In (pid, p) (players s) ->
    ((float_of_int PLAYER_R <=? x p)%float = true /\
     (x p <=? float_of_int (MAP_W - PLAYER_R))%float = true) /\
    ((float_of_int PLAYER_R <=? y p)%float = true /\
     (y p <=? float_of_int (MAP_H - PLAYER_R))%float = true).
Proof.
  intros s Hr.
  assert (H : all_players in_bounds (players s)).
  { induction Hr; [constructor | now apply in_bounds_step]. }
  intros pid p Hin. unfold all_players in H. rewrite Forall_forall in H.
  exact (H _ Hin).
Qed.

(** ** Identifiers *)

Lemma next_pid_step s e :
  next_pid (step s e) =
  match e with Connect _ _ _ => next_pid s + 1 | _ => next_pid s end.
Proof.
  event_cases e; simpl;
    try reflexivity.
  - unfold handle_auto_start. now destruct (negb (game_active s) && _).
  - unfold apply_input. destruct (negb (dict_mem pid (players s))); [reflexivity|].
    now destruct data.
  - unfold spawn_coin. destruct (game_active s); [|reflexivity].
    now destruct (coin s).
  - unfold game_loop_iter, simulate, coin_collision. simpl.
    destruct (game_active s).
    + destruct (coin s); simpl; now destruct (geb tc _).
    + now destruct (float_truthy _ && _ && _).
Qed.

Lemma issued_cons s e es :
  issued s (e :: es) =
  match e with Connect _ _ _ => [next_pid s] | _ => [] end ++ issued (step s e) es.
Proof. destruct e; reflexivity. Qed.

Lemma issued_from s es :
  issued s es = map (fun i => next_pid s + Z.of_nat i) (seq 0 (connects es)).
Proof.
  revert s. induction es as [|e es IH]; intros s; [reflexivity|].
  rewrite issued_cons, IH, next_pid_step.
  event_cases e;
    try reflexivity.
  cbn [connects seq map app]. f_equal; [lia|].
  rewrite <- seq_shift, map_map. apply map_ext. intros i. lia.
Qed.

Lemma count_up_sorted a n : StronglySorted Z.lt (map Z.of_nat (seq a n)).
Proof.
  revert a. induction n as [|n IH]; intros a; simpl; constructor; [apply IH|].
  rewrite Forall_map, Forall_forall. intros i Hi. apply in_seq in Hi. lia.
Qed.

Lemma sorted_NoDup l : StronglySorted Z.lt l -> NoDup l.
Proof.
  induction 1 as [|a l Hs IH Hf]; constructor; [|assumption].
  intros Hin. rewrite Forall_forall in Hf. specialize (Hf _ Hin). lia.
Qed.

(** C3. Along any run from the initial state, whatever mixture of
    connections, disconnections and other events it is, the identifiers
    handed out are 1, 2, ..., n in that order, n being the number of
    connections: a strictly increasing sequence without repetition. *)
Theorem issued_identifiers_count_up :
  forall t0 es,
    issued (init t0) es = map Z.of_nat (seq 1 (connects es)) /\
    StronglySorted Z.lt (issued (init t0) es) /\
    NoDup (issued (init t0) es).
Proof.
  intros t0 es.
  assert (H : issued (init t0) es = map Z.of_nat (seq 1 (connects es))).
  { rewrite issued_from. simpl next_pid.
    rewrite <- seq_shift, map_map. apply map_ext. intros i. lia. }
  rewrite H. split; [reflexivity|].
  split; [apply count_up_sorted | apply sorted_NoDup, count_up_sorted].
Qed.

(** ** The coin *)

(** X1. In every reachable state a coin is on the map only while a round
    is on: whenever [coin] is not [None], [game_active] is true. *)
Lemma coin_only_while_active s : reachable s -> coin s <> None -> game_active s = true.
Proof.
  induction 1 as [t0|s e Hr IH He]; [simpl; congruence|].
  event_cases e; simpl; auto.
  - unfold handle_auto_start. destruct (negb (game_active s) && _); simpl; auto.
  - unfold apply_input. destruct (negb (dict_mem pid (players s))); auto.
    destruct data; auto.
  - unfold spawn_coin. destruct (game_active s) eqn:Ha; [|rewrite Ha; exact IH].
    destruct (coin s); simpl; auto.
  - unfold game_loop_iter. simpl. destruct (game_active s) eqn:Ha.
    + destruct (geb tc _); [simpl; congruence|].
      intros _. now rewrite game_active_simulate.
    + destruct (float_truthy _ && _ && _); simpl; auto.
      now rewrite Ha.
Qed.

(** C4. [coin] holds no coin or one.  A firing of the spawner puts a coin
    there exactly when the round is on and there is none, and leaves the
    state alone otherwise; collision resolution leaves [coin] as it is or
    empties it; [start_round] and [end_round] empty it; and every event
    other than a firing of the spawner leaves [coin] as it is or empties
    it. *)
Theorem at_most_one_coin :
  (forall s, (coin_count s <= 1)%nat) /\
  (forall rx ry s,
     (game_active s = true /\ coin s = None /\
      coin (spawn_coin rx ry s) = Some {| coin_x := rx; coin_y := ry |}) \/
     ((game_active s = false \/ coin s <> None) /\ spawn_coin rx ry s = s)) /\
  (forall s, coin (coin_collision s) = coin s \/ coin (coin_collision s) = None) /\
  (forall draw now s, coin (start_round draw now s) = None) /\
  (forall now s, coin (end_round now s) = None) /\
  (forall s e,
     (forall rx ry, e <> SpawnCoin rx ry) ->
     coin (step s e) = coin s \/ coin (step s e) = None).
Proof.
  assert (Hcol : forall s, coin (coin_collision s) = coin s \/ coin (coin_collision s) = None).
  { intros s. unfold coin_collision. destruct (coin s) as [c|] eqn:Hc; simpl; [|auto].
    induction (players s) as [|[k p] ps IH]; simpl; [auto|].
    destruct (touches c p); simpl; auto. }
  repeat split.
  - intros s. unfold coin_count. destruct (coin s); lia.
  - intros rx ry s. unfold spawn_coin.
    destruct (game_active s); [|right; auto].
    destruct (coin s) eqn:Hc; [right; split; [right; congruence|reflexivity]|].
    left. auto.
  - exact Hcol.
  - intros s e Hne.
    event_cases e; simpl; auto.
    + unfold handle_auto_start. destruct (negb (game_active s) && _); auto.
    + unfold apply_input. destruct (negb (dict_mem pid (players s))); auto.
      destruct data; auto.
    + now elim (Hne rx ry).
    + unfold game_loop_iter. simpl. destruct (game_active s).
      * destruct (geb tc _); [right; reflexivity|].
        unfold simulate.
        destruct (Hcol (set_players (integrate (now - loop_last s)%float (players s))
                          (set_loop_last now s))); auto.
      * destruct (float_truthy _ && _ && _); auto.
Qed.

(** ** Input *)

Lemma dict_get_update k f ps :
  dict_get k (dict_update k f ps) = option_map f (dict_get k ps).
Proof.
  induction ps as [|[k' p] ps IH]; simpl; [reflexivity|].
  destruct (k =? k') eqn:Hk; simpl; rewrite Hk; auto.
Qed.

Lemma dict_mem_get k ps : dict_mem k ps = true -> exists p, dict_get k ps = Some p.
Proof.
  induction ps as [|[k' p] ps IH]; simpl; [discriminate|].
  destruct (k =? k'); simpl; eauto.
Qed.

Lemma input_velocity_magnitude up down left right :
  let v := input_velocity up down left right in
  let m := hypot (fst v) (snd v) in
  (axis left right = 0 /\ axis up down = 0 -> m = 0%float) /\
  (~ (axis left right = 0 /\ axis up down = 0) ->
   (abs (m - 1) <=? 0x1p-52)%float = true).
Proof.
  unfold input_velocity, axis.
  destruct (truthy up), (truthy down), (truthy left), (truthy right);
    vm_compute; split; intros H; try reflexivity;
    solve [ destruct H; discriminate | exfalso; apply H; split; reflexivity ].
Qed.

(** C5. When [apply_input] runs for a connected player on a decoded input
    record (any object; missing keys count as false, other values by their
    truth value), the velocity it stores has magnitude 0 when both axes
    cancel or no key is held, and otherwise a magnitude within 2^-52 of
    1, the magnitude being taken in binary64 like the velocity itself. *)
Theorem applied_velocity_zero_or_unit :
  forall s pid d,
    dict_mem pid (players s) = true ->
    let up := py_get d "up" (PBool false) in
    let down := py_get d "down" (PBool false) in
    let left := py_get d "left" (PBool false) in
    let right := py_get d "right" (PBool false) in
    exists s' p',
      apply_input pid (PDict d) s = Ok s' /\
      dict_get pid (players s') = Some p' /\
      (vx p', vy p') = input_velocity up down left right /\
      (axis left right = 0 /\ axis up down = 0 -> hypot (vx p') (vy p') = 0%float) /\
      (~ (axis left right = 0 /\ axis up down = 0) ->
       (abs (hypot (vx p') (vy p') - 1) <=? 0x1p-52)%float = true).
Proof.
  intros s pid d Hmem up down left right.
  destruct (dict_mem_get _ _ Hmem) as [p Hp].
  unfold apply_input. rewrite Hmem. simpl negb. cbv iota.
  eexists. exists (set_velocity (input_velocity up down left right) p).
  split; [reflexivity|]. split; [simpl; now rewrite dict_get_update, Hp|].
  split; [simpl; now destruct (input_velocity up down left right)|].
  simpl vx. simpl vy.
  apply (input_velocity_magnitude up down left right).
Qed.

Example diagonal_velocity :
  input_velocity (PBool true) (PBool false) (PBool false) (PBool true)
  = (0x1.6a09e667f3bccp-1, -0x1.6a09e667f3bccp-1)%float.
Proof. vm_compute. reflexivity. Qed.

Example diagonal_magnitude :
  let v := input_velocity (PBool true) (PBool false) (PBool false) (PBool true) in
  hypot (fst v) (snd v) = 0x1.fffffffffffffp-1%float.
Proof. vm_compute. reflexivity. Qed.

(** C8. When the player an input is meant for is no longer in the
    registry, [apply_input] returns without raising, whatever the message
    holds, and the state after it is the state before it. *)
Theorem apply_input_absent_is_noop :
  forall s pid data,
    dict_mem pid (players s) = false ->
    apply_input pid data s = Ok s /\ step s (Input pid data) = s.
Proof.
  intros s pid data H. unfold step, apply_input. rewrite H. simpl. auto.
Qed.

(** ** Collecting the coin *)

Lemma scores_integrate dt ps : scores (integrate dt ps) = scores ps.
Proof. unfold scores, integrate. rewrite map_map. reflexivity. Qed.

(** The loop stops at the first entry that touches the coin. *)
Lemma collision_loop_first c l1 pid p l2 :
  Forall (fun kp => touches c (snd kp) = false) l1 ->
  touches c p = true ->
  collision_loop c (l1 ++ (pid, p) :: l2) = (l1 ++ (pid, add_point p) :: l2, None).
Proof.
  intros H1 Hp. induction H1 as [|[k q] l1 Hq _ IH]; simpl.
  - now rewrite Hp.
  - simpl in Hq. rewrite Hq, IH. reflexivity.
Qed.

(** With nobody touching it the coin stays and nothing changes. *)
Lemma collision_loop_none c ps :
  Forall (fun kp => touches c (snd kp) = false) ps ->
  collision_loop c ps = (ps, Some c).
Proof.
  induction 1 as [|[k q] ps Hq _ IH]; simpl; [reflexivity|].
  simpl in Hq. rewrite Hq, IH. reflexivity.
Qed.

(** C6. Take an iteration of the game loop during a round, with a coin
    [c] on the map, and split the registry at the first player [pid] who,
    once moved by this iteration, is at distance at most [PLAYER_R + COIN_R]
    of the coin, the distance being what [math.hypot] returns for the two
    differences of coordinates.  After the iteration the registry holds the
    same players in the same order, each moved; the score of [pid] is one more
    than before, every other score is what it was, including those of later
    players who are within that distance as well; and the coin is gone. *)
Theorem first_toucher_collects :
  forall s c now t_check t_round draw l1 pid p l2,
    game_active s = true ->
    coin s = Some c ->
    players s = l1 ++ (pid, p) :: l2 ->
    let dt := (now - loop_last s)%float in
    let reach := float_of_int (PLAYER_R + COIN_R) in
    let distance q := math_hypot (x q - coin_x c) (y q - coin_y c)%float in
    Forall (fun kp => (distance (move_player dt (snd kp)) <=? reach)%float = false) l1 ->
    (distance (move_player dt p) <=? reach)%float = true ->
    let s' := game_loop_iter now t_check t_round draw s in
    players s' =
      integrate dt l1 ++ (pid, add_point (move_player dt p)) :: integrate dt l2 /\
    scores (players s') = scores l1 ++ (score p + 1) :: scores l2 /\
    coin s' = None.
Proof.
  intros s c now tc tr draw l1 pid p l2 Hact Hc Hps dt reach distance Hfar Hnear s'.
  assert (H1 : Forall (fun kp => touches c (move_player dt (snd kp)) = false) l1)
    by exact Hfar.
  assert (Hp : touches c (move_player dt p) = true) by exact Hnear.
  assert (Hsim : simulate dt (set_loop_last now s) =
                 set_coin None
                   (set_players
                      (integrate dt l1 ++ (pid, add_point (move_player dt p)) :: integrate dt l2)
                      (set_loop_last now s))).
  { unfold simulate, coin_collision. simpl. rewrite Hc, Hps.
    unfold integrate at 1 2. rewrite map_app. simpl.
    fold (integrate dt l1). fold (integrate dt l2).
    rewrite collision_loop_first; [reflexivity| |exact Hp].
    unfold integrate. rewrite Forall_map. exact H1. }
  assert (Hs' : players s' =
                integrate dt l1 ++ (pid, add_point (move_player dt p)) :: integrate dt l2
                /\ coin s' = None).
  { unfold s', game_loop_iter. simpl. rewrite Hact. fold dt. rewrite Hsim.
    destruct (geb tc _); simpl; auto. }
  destruct Hs' as [Hpl Hcoin]. split; [exact Hpl|]. split; [|exact Hcoin].
  rewrite Hpl. unfold scores. rewrite map_app. simpl.
  fold (scores (integrate dt l1)). fold (scores (integrate dt l2)).
  now rewrite !scores_integrate.
Qed.

(** ** Starting a round *)

(** C9. Right after [start_round] every player in the registry has
    velocity (0, 0). *)
Theorem start_round_stops_players :
  forall draw now s pid p,
    In (pid, p) (players (start_round draw now s)) ->
    vx p = 0%float /\ vy p = 0%float.
Proof.
  intros draw now s pid p Hin.
  assert (H : all_players (fun q => vx q = 0%float /\ vy q = 0%float)
                (players (start_round draw now s))).
  { simpl. apply all_respawn. intros. simpl. auto. }
  unfold all_players in H. rewrite Forall_forall in H. exact (H _ Hin).
Qed.

(** [start_round] keeps the registry's players, in their order. *)
Lemma start_round_keys draw now s :
  keys (players (start_round draw now s)) = keys (players s).
Proof. simpl. apply keys_respawn. Qed.

(** ** Colours *)

Lemma palette_NoDup : NoDup palette.
Proof.
  unfold palette.
  repeat (constructor; [simpl; intros H; repeat (destruct H as [H|H]; [discriminate H|]); exact H|]).
  constructor.
Qed.

Lemma palette_index_bound pid :
  (Z.to_nat ((pid - 1) mod Z.of_nat (List.length palette)) < List.length palette)%nat.
Proof.
  simpl List.length.
  pose proof (Z.mod_pos_bound (pid - 1) (Z.of_nat 6) ltac:(lia)). lia.
Qed.

(** C10. The colour of an identifier is the entry of the six-entry
    palette at index [(pid - 1) mod 6]: identifiers 1 to 6 get the six
    palette colours in order, these are six different colours, every integer
    gets one of them, and the colour of an identifier is that of the
    identifier six higher.  So colours repeat among live players: in a
    reachable state players 1 and 7 are both connected and share a colour. *)
Theorem color_has_period_six :
  (forall pid, get_color_for_pid (pid + 6) = get_color_for_pid pid) /\
  (forall pid,
     get_color_for_pid pid =
     nth (Z.to_nat ((pid - 1) mod 6))
       ["#2b85f0"; "#ff4d4f"; "#2bbf57"; "#f07f2b"; "#a02bf0"; "#f02b85"]%string
       ""%string) /\
  map get_color_for_pid [1; 2; 3; 4; 5; 6]
    = ["#2b85f0"; "#ff4d4f"; "#2bbf57"; "#f07f2b"; "#a02bf0"; "#f02b85"]%string /\
  map get_color_for_pid [1; 2; 3; 4; 5; 6] = palette /\
  List.length palette = 6%nat /\
  NoDup palette /\
  (forall pid, In (get_color_for_pid pid) palette) /\
  (exists s p1 p7,
     reachable s /\
     dict_get 1 (players s) = Some p1 /\
     dict_get 7 (players s) = Some p7 /\
     color p1 = get_color_for_pid 1 /\
     color p7 = get_color_for_pid 7 /\
     color p1 = color p7).
Proof.
  split; [|split; [|split; [|split; [|split; [|split; [|split]]]]]].
  - intros pid. unfold get_color_for_pid. simpl List.length.
    replace (pid + 6 - 1) with (pid - 1 + 1 * Z.of_nat 6) by lia.
    now rewrite Z_mod_plus_full.
  - intros pid. reflexivity.
  - reflexivity.
  - reflexivity.
  - reflexivity.
  - exact palette_NoDup.
  - intros pid. unfold get_color_for_pid. apply nth_In. apply palette_index_bound.
  - exists (run (init 0) (repeat (Connect 0 100 100) 7)).
    eexists. eexists. split.
    + apply reachable_run; [constructor|]. repeat constructor.
    + vm_compute. repeat split; reflexivity.
Qed.

Example colors_of_first_seven :
  map get_color_for_pid [1; 2; 3; 4; 5; 6; 7] =
  ["#2b85f0"; "#ff4d4f"; "#2bbf57"; "#f07f2b"; "#a02bf0"; "#f02b85"; "#2b85f0"]%string.
Proof. vm_compute. reflexivity. Qed.

(** ** From intermission to a round *)

Lemma intermission_reachable : reachable intermission_state.
Proof.
  apply (reach_step demo_state (Tick 200 200 200 demo_draws) demo_reachable).
  intros i. repeat constructor.
Qed.

Lemma game_active_step_other s e :
  match e with AutoStart _ _ | Tick _ _ _ _ => True
             | _ => game_active (step s e) = game_active s end.
Proof.
  event_cases e; simpl; auto.
  - unfold apply_input. destruct (negb (dict_mem pid (players s))); [reflexivity|].
    now destruct data.
  - unfold spawn_coin. destruct (game_active s) eqn:Ha; [|exact Ha].
    now destruct (coin s).
Qed.

(** C7, amended.  (1) An event takes the phase from Intermission to Active
    only if it is an iteration of the game loop that finds a deadline set and
    elapsed and at least one player connected, or the auto-start of a
    registration that finds at least one player connected; the auto-start
    does not look at the deadline.  (2) An iteration of the game loop in
    Intermission with nobody connected leaves the phase and the deadline as
    they are.  (3) In Intermission, a registration followed by its auto-start
    gives an Active round, whatever the deadline. *)
Theorem intermission_to_active :
  (forall s e,
     game_active s = false -> game_active (step s e) = true ->
     (exists now t_check t_round draw,
        e = Tick now t_check t_round draw /\
        float_truthy (intermission_end s) = true /\
        geb t_check (intermission_end s) = true /\
        players s <> []) \/
     (exists draw now, e = AutoStart draw now /\ players s <> [])) /\
  (forall now t_check t_round draw s,
     game_active s = false -> players s = [] ->
     game_loop_iter now t_check t_round draw s = set_loop_last now s /\
     game_active (game_loop_iter now t_check t_round draw s) = false /\
     intermission_end (game_loop_iter now t_check t_round draw s) = intermission_end s) /\
  (forall w rx ry draw now s,
     game_active s = false ->
     game_active (step (step s (Connect w rx ry)) (AutoStart draw now)) = true).
Proof.
  split; [|split].
  - intros s e Hoff Hon.
    pose proof (game_active_step_other s e) as Hother.
    event_cases e;
      try (rewrite Hother in Hon; congruence).
    + right. exists draw, now. split; [reflexivity|].
      simpl in Hon. unfold handle_auto_start in Hon. rewrite Hoff in Hon.
      destruct (players s); [simpl in Hon; congruence|discriminate].
    + left. exists now, tc, tr, draw. split; [reflexivity|].
      simpl in Hon. unfold game_loop_iter in Hon. simpl in Hon.
      rewrite Hoff in Hon.
      destruct (float_truthy (intermission_end s)); [|simpl in Hon; congruence].
      destruct (geb tc (intermission_end s)); [|simpl in Hon; congruence].
      destruct (players s); [simpl in Hon; congruence|].
      repeat split; auto. discriminate.
  - intros now tc tr draw s Hoff Hnil.
    assert (H : game_loop_iter now tc tr draw s = set_loop_last now s).
    { unfold game_loop_iter. simpl. rewrite Hoff, Hnil.
      now rewrite !andb_false_r. }
    rewrite H. simpl. auto.
  - intros w rx ry draw now s Hoff. simpl. unfold handle_auto_start. simpl.
    rewrite Hoff. simpl.
    assert (Hlen : (1 <=? Z.of_nat (List.length
              (dict_set (next_pid s)
                 {| ws := w; x := rx; y := ry; vx := 0; vy := 0; score := 0;
                    color := get_color_for_pid (next_pid s) |} (players s)))) = true).
    { apply Z.leb_le. destruct (players s) as [|[k q] l]; simpl; [lia|].
      destruct (next_pid s =? k); simpl List.length; lia. }
    now rewrite Hlen.
Qed.

(** * Further properties of the server *)

(** ** Invariants of the reachable states *)

Lemma crowd_reachable : reachable crowd_state.
Proof. apply reachable_run; [constructor | repeat constructor]. Defined.

(** X2. In every reachable state the identifiers of the connected players
    are pairwise distinct, stand in the registry in strictly increasing
    order, and lie between 1 and [next_pid - 1]. *)
Theorem registry_identifiers :
  forall s, reachable s ->
    NoDup (keys (players s)) /\
    StronglySorted Z.lt (keys (players s)) /\
    Forall (fun k => 1 <= k < next_pid s) (keys (players s)).
Proof.
  intros s Hr. destruct (reachable_registry_ok s Hr) as [Hs Hb _ _].
  split; [now apply sorted_NoDup|]. split; assumption.
Qed.

(** Predicates on the entries of the registry that every operation keeps. *)
Section EntryInvariant.

Variable Q : Z -> Player -> Prop.

Hypothesis Q_new : forall k w rx ry, Q k (new_player w rx ry k).
Hypothesis Q_respawn : forall k xy p, Q k p -> Q k (respawn_player xy p).
Hypothesis Q_velocity :
  forall k up down left right p,
    Q k p -> Q k (set_velocity (input_velocity up down left right) p).
Hypothesis Q_move : forall k dt p, Q k p -> Q k (move_player dt p).
Hypothesis Q_point : forall k p, Q k p -> Q k (add_point p).

Lemma entries_respawn draw i ps : entries Q ps -> entries Q (respawn draw i ps).
Proof.
  intros H. revert i. induction H as [|[k p] ps Hp _ IH]; intros i; simpl;
    constructor; simpl; auto.
  apply IH.
Qed.

Lemma entries_integrate dt ps : entries Q ps -> entries Q (integrate dt ps).
Proof.
  intros H. unfold entries, integrate. rewrite Forall_map.
  eapply Forall_impl; [|exact H]. simpl. intros [k p]. simpl. auto.
Qed.

Lemma entries_collision c ps : entries Q ps -> entries Q (fst (collision_loop c ps)).
Proof.
  induction 1 as [|[k p] ps Hp Hps IH]; simpl; [constructor|].
  destruct (touches c p); simpl; constructor; simpl; auto.
Qed.

Lemma entries_update k up down left right ps :
  entries Q ps ->
  entries Q (dict_update k (set_velocity (input_velocity up down left right)) ps).
Proof.
  induction 1 as [|[k' p] ps Hp Hps IH]; simpl; [constructor|].
  destruct (k =? k'); constructor; simpl; auto.
Qed.

Lemma entries_pop k ps : entries Q ps -> entries Q (dict_pop k ps).
Proof.
  induction 1 as [|[k' p] ps Hp Hps IH]; simpl; [constructor|].
  destruct (k =? k'); [assumption|]. constructor; auto.
Qed.

Lemma entries_set k v ps : Q k v -> entries Q ps -> entries Q (dict_set k v ps).
Proof.
  intros Hv. induction 1 as [|[k' p] ps Hp Hps IH]; simpl.
  - constructor; [assumption|constructor].
  - destruct (Z.eqb_spec k k') as [->|Hne]; constructor; simpl; auto.
Qed.

Lemma entries_step s e : entries Q (players s) -> entries Q (players (step s e)).
Proof.
  intros H. event_cases e; simpl.
  - apply entries_set; [apply Q_new | assumption].
  - unfold handle_auto_start. destruct (negb (game_active s) && _); [|assumption].
    simpl. now apply entries_respawn.
  - now apply entries_pop.
  - unfold apply_input. destruct (negb (dict_mem pid (players s))); [assumption|].
    destruct data; try assumption. simpl. now apply entries_update.
  - unfold spawn_coin. destruct (game_active s); [|assumption].
    now destruct (coin s).
  - unfold game_loop_iter. simpl. destruct (game_active s).
    + assert (H2 : entries Q (players (simulate (now - loop_last s)%float
                                       (set_loop_last now s)))).
      { unfold simulate, coin_collision. simpl.
        pose proof (entries_integrate (now - loop_last s)%float _ H) as Hi.
        destruct (coin s); simpl; [|assumption]. now apply entries_collision. }
      destruct (geb tc _); assumption.
    + destruct (float_truthy _ && _ && _); [|assumption].
      simpl. now apply entries_respawn.
Qed.

Lemma entries_reachable s : reachable s -> entries Q (players s).
Proof.
  induction 1 as [t0|s e Hr IH He]; [constructor | now apply entries_step].
Qed.

End EntryInvariant.

(** X3. In every reachable state the colour of each connected player is
    the palette colour of its identifier, [get_color_for_pid pid]: the
    colour given at registration is never changed. *)
Theorem color_follows_identifier :
  forall s, reachable s ->
  forall pid p, In (pid, p) (players s) -> color p = get_color_for_pid pid.
Proof.
  intros s Hr pid p Hin.
  assert (H : entries (fun k q => color q = get_color_for_pid k) (players s)).
  { apply entries_reachable; auto. }
  unfold entries in H. rewrite Forall_forall in H. exact (H _ Hin).
Qed.

(** X4. In every reachable state the velocity of each connected player
    has length 0, or length 1 up to 2^-52, lengths being taken in binary64:
    registration and [start_round] store (0, 0), [apply_input] stores a
    normalised vector, and nothing else writes a velocity. *)
Theorem velocity_zero_or_unit :
  forall s, reachable s ->
  forall pid p, In (pid, p) (players s) ->
    hypot (vx p) (vy p) = 0%float \/
    (abs (hypot (vx p) (vy p) - 1) <=? 0x1p-52)%float = true.
Proof.
  intros s Hr pid p Hin.
  assert (H : entries (fun _ q => unit_or_zero q) (players s)).
  { apply entries_reachable; auto.
    - intros. left. reflexivity.
    - intros. left. reflexivity.
    - intros _ up down left right q _. unfold unit_or_zero. simpl.
      destruct (input_velocity_magnitude up down left right) as [H0 H1].
      destruct (Z.eq_dec (axis left right) 0) as [Hx|Hx];
        [destruct (Z.eq_dec (axis up down) 0) as [Hy|Hy]|].
      + left. apply H0. auto.
      + right. apply H1. intros [_ Hy']. contradiction.
      + right. apply H1. intros [Hx' _]. contradiction. }
  unfold entries in H. rewrite Forall_forall in H. exact (H _ Hin).
Qed.

Lemma moving_reachable : reachable moving_state.
Proof.
  exact (reach_step demo_state
           (Input 2 (PDict [("down", PBool true); ("left", PBool true)]%string))
           demo_reachable I).
Defined.

(** X5. In every reachable state, while a round is on no winner is
    recorded and no intermission deadline is armed: [game_active] true
    gives [last_winner = None] and [intermission_end = 0]. *)
Theorem active_round_has_no_winner :
  forall s, reachable s -> game_active s = true ->
    last_winner s = None /\ intermission_end s = 0%float.
Proof.
  intros s Hr. induction Hr as [t0|s e Hr IH He]; [simpl; congruence|].
  event_cases e; simpl; auto.
  - unfold handle_auto_start. destruct (negb (game_active s) && _); simpl; auto.
  - unfold apply_input. destruct (negb (dict_mem pid (players s))); auto.
    destruct data; auto.
  - unfold spawn_coin. destruct (game_active s) eqn:Ha; [|rewrite Ha; exact IH].
    destruct (coin s); simpl; auto.
  - unfold game_loop_iter. simpl. destruct (game_active s) eqn:Ha.
    + destruct (geb tc _); [simpl; congruence|]. intros _.
      unfold simulate, coin_collision. simpl. destruct (coin s); simpl; auto.
    + destruct (float_truthy _ && _ && _); simpl; auto.
      rewrite Ha. congruence.
Qed.

(** ** Connecting and disconnecting *)

Lemma dict_mem_keys k ps : dict_mem k ps = true <-> In k (keys ps).
Proof.
  induction ps as [|[k' p] ps IH]; simpl; [split; [discriminate|tauto]|].
  rewrite orb_true_iff, IH, Z.eqb_eq. split; intros [H|H]; auto.
Qed.

Lemma dict_get_absent k ps : dict_mem k ps = false -> dict_get k ps = None.
Proof.
  induction ps as [|[k' p] ps IH]; simpl; [reflexivity|].
  destruct (k =? k'); simpl; [discriminate|exact IH].
Qed.

Lemma dict_pop_absent k ps : dict_mem k ps = false -> dict_pop k ps = ps.
Proof.
  induction ps as [|[k' p] ps IH]; simpl; [reflexivity|].
  destruct (k =? k'); simpl; [discriminate|]. intros H. now rewrite IH.
Qed.

Lemma dict_pop_filter k ps :
  NoDup (keys ps) ->
  dict_pop k ps = filter (fun kp => negb (fst kp =? k)) ps.
Proof.
  induction ps as [|[k' p] ps IH]; simpl; intros Hnd; [reflexivity|].
  inversion Hnd as [|? ? Hnotin Hnd']; subst.
  rewrite (Z.eqb_sym k' k). destruct (Z.eqb_spec k k') as [->|Hne]; simpl.
  - symmetry. apply forallb_filter_id. apply forallb_forall.
    intros [k2 p2] Hin. simpl. apply negb_true_iff, Z.eqb_neq. intros ->.
    apply Hnotin. unfold keys. now apply (in_map fst) in Hin.
  - now rewrite IH.
Qed.

Lemma dict_get_pop_other k q ps : q <> k -> dict_get q (dict_pop k ps) = dict_get q ps.
Proof.
  intros Hne. induction ps as [|[k' p] ps IH]; simpl; [reflexivity|].
  destruct (Z.eqb_spec k k') as [->|Hk]; simpl.
  - destruct (Z.eqb_spec q k'); [contradiction|reflexivity].
  - destruct (q =? k'); auto.
Qed.

Lemma set_players_same s : set_players (players s) s = s.
Proof. now destruct s. Qed.

(** X6. In a reachable state, a disconnection removes the entry of that
    identifier and nothing else: the registry afterwards is the registry
    before without that identifier, the other players keep their data and
    their order, the globals other than [players] (the counter [next_pid]
    among them) are untouched, and disconnecting an identifier that is not
    connected, for instance a second time, changes nothing. *)
Theorem disconnect_removes_one_player :
  forall s pid, reachable s ->
    let s' := handle_finally pid s in
    players s' = filter (fun kp => negb (fst kp =? pid)) (players s) /\
    dict_mem pid (players s') = false /\
    (forall q, q <> pid -> dict_get q (players s') = dict_get q (players s)) /\
    globals s' = globals s /\
    handle_finally pid s' = s' /\
    (dict_mem pid (players s) = false -> s' = s).
Proof.
  intros s pid Hr s'.
  destruct (reachable_registry_ok s Hr) as [Hs _ _ _].
  pose proof (sorted_NoDup _ Hs) as Hnd.
  assert (Hf : players s' = filter (fun kp => negb (fst kp =? pid)) (players s))
    by (apply dict_pop_filter; exact Hnd).
  assert (Hgone : dict_mem pid (players s') = false).
  { destruct (dict_mem pid (players s')) eqn:Hm; [|reflexivity].
    apply dict_mem_keys in Hm. unfold keys in Hm. apply in_map_iff in Hm.
    destruct Hm as ([k p] & Hk & Hin). simpl in Hk. subst k.
    rewrite Hf in Hin. apply filter_In in Hin as [_ Hneq]. simpl in Hneq.
    now rewrite Z.eqb_refl in Hneq. }
  repeat split; auto.
  - intros q Hq. apply dict_get_pop_other. exact Hq.
  - unfold handle_finally at 1. rewrite dict_pop_absent by exact Hgone.
    apply set_players_same.
  - intros Habs. unfold s', handle_finally. rewrite dict_pop_absent by exact Habs.
    apply set_players_same.
Qed.

Lemma dict_get_app_last k v ps :
  dict_mem k ps = false -> dict_get k (ps ++ [(k, v)]) = Some v.
Proof.
  induction ps as [|[k' p] ps IH]; simpl.
  - now rewrite Z.eqb_refl.
  - destruct (k =? k'); simpl; [discriminate|exact IH].
Qed.

Lemma dict_get_app_other k q v ps :
  q <> k -> dict_get q (ps ++ [(k, v)]) = dict_get q ps.
Proof.
  intros Hne. induction ps as [|[k' p] ps IH]; simpl.
  - destruct (Z.eqb_spec q k); [contradiction|reflexivity].
  - destruct (q =? k'); auto.
Qed.

(** X7. In a reachable state, a registration gives out the identifier
    [next_pid], which no connected player holds, and puts the new player
    last in the registry, with the drawn position, velocity (0, 0), score 0
    and the colour of its identifier; every player already connected keeps
    its entry, and the counter moves up by one. *)
Theorem registration_appends_new_player :
  forall s w rx ry, reachable s ->
    let pid := fst (handle_register w rx ry s) in
    let s' := snd (handle_register w rx ry s) in
    pid = next_pid s /\
    dict_mem pid (players s) = false /\
    players s' = players s ++ [(pid, new_player w rx ry pid)] /\
    dict_get pid (players s') = Some (new_player w rx ry pid) /\
    (forall q, q <> pid -> dict_get q (players s') = dict_get q (players s)) /\
    next_pid s' = next_pid s + 1.
Proof.
  intros s w rx ry Hr pid s'.
  destruct (reachable_registry_ok s Hr) as [_ Hb _ _].
  assert (Hfresh : dict_mem (next_pid s) (players s) = false).
  { destruct (dict_mem (next_pid s) (players s)) eqn:Hm; [|reflexivity].
    apply dict_mem_keys in Hm. rewrite Forall_forall in Hb.
    specialize (Hb _ Hm). lia. }
  assert (Happ : players s' = players s ++ [(pid, new_player w rx ry pid)]).
  { unfold s', pid. simpl. apply dict_set_fresh.
    eapply Forall_impl; [|exact Hb]. simpl. intros; lia. }
  split; [reflexivity|]. split; [exact Hfresh|]. split; [exact Happ|].
  rewrite Happ. split; [apply dict_get_app_last; exact Hfresh|].
  split; [|reflexivity].
  intros q Hq. now apply dict_get_app_other.
Qed.

(** ** What an input changes *)

Lemma body_update k v ps :
  map (fun kp => (fst kp, body (snd kp))) (dict_update k (set_velocity v) ps)
  = map (fun kp => (fst kp, body (snd kp))) ps.
Proof.
  induction ps as [|[k' p] ps IH]; simpl; [reflexivity|].
  destruct (k =? k'); simpl; [reflexivity|]. now rewrite IH.
Qed.

Lemma dict_get_update_other k q f ps :
  q <> k -> dict_get q (dict_update k f ps) = dict_get q ps.
Proof.
  intros Hne. induction ps as [|[k' p] ps IH]; simpl; [reflexivity|].
  destruct (Z.eqb_spec k k') as [->|Hk]; simpl.
  - destruct (Z.eqb_spec q k'); [contradiction|reflexivity].
  - destruct (q =? k'); auto.
Qed.

(** X8. Whatever the message and whoever it is for, [apply_input] that
    returns normally changes velocities only, and only the target's: every
    player keeps its place in the registry, its session, position, score and
    colour; every player other than the target keeps its whole entry; and the
    globals other than [players] are untouched. *)
Theorem apply_input_changes_velocity_only :
  forall s pid data s',
    apply_input pid data s = Ok s' ->
    map (fun kp => (fst kp, body (snd kp))) (players s')
      = map (fun kp => (fst kp, body (snd kp))) (players s) /\
    (forall q, q <> pid -> dict_get q (players s') = dict_get q (players s)) /\
    globals s' = globals s.
Proof.
  intros s pid data s' H. unfold apply_input in H.
  destruct (negb (dict_mem pid (players s))).
  - inversion H; subst. auto.
  - destruct data; try discriminate. inversion H; subst. simpl.
    split; [apply body_update|]. split; [|reflexivity].
    intros q Hq. now apply dict_get_update_other.
Qed.

(** ** The end of a round *)

Lemma game_active_step_on s e :
  match e with Tick _ _ _ _ => True
             | _ => game_active s = true -> game_active (step s e) = true end.
Proof.
  event_cases e; simpl; auto.
  - unfold handle_auto_start. intros Ha. rewrite Ha. simpl. exact Ha.
  - unfold apply_input. destruct (negb (dict_mem pid (players s))); [auto|].
    destruct data; auto.
  - unfold spawn_coin. intros Ha. rewrite Ha. now destruct (coin s).
Qed.

(** X9. A round ends only in an iteration of the game loop whose reading
    of the clock has reached [game_end_time]: no other event turns
    [game_active] off.  That iteration calls [end_round] after moving the
    players and resolving the collision; afterwards there is no coin and the
    intermission deadline is the clock reading of [end_round] plus
    [INTERMISSION].  An iteration whose reading is short of [game_end_time]
    leaves the round on. *)
Theorem round_ends_at_deadline :
  (forall s e,
     game_active s = true -> game_active (step s e) = false ->
     exists now t_check t_round draw,
       e = Tick now t_check t_round draw /\
       geb t_check (game_end_time s) = true /\
       step s e = end_round t_round
                    (simulate (now - loop_last s)%float (set_loop_last now s)) /\
       coin (step s e) = None /\
       intermission_end (step s e) = (t_round + float_of_int INTERMISSION)%float) /\
  (forall s now t_check t_round draw,
     game_active s = true ->
     game_active (game_loop_iter now t_check t_round draw s)
       = negb (geb t_check (game_end_time s))).
Proof.
  assert (Htick : forall s now tc tr draw,
            game_active s = true ->
            game_loop_iter now tc tr draw s =
              if geb tc (game_end_time s)
              then end_round tr (simulate (now - loop_last s)%float (set_loop_last now s))
              else simulate (now - loop_last s)%float (set_loop_last now s)).
  { intros s now tc tr draw Ha. unfold game_loop_iter. simpl. rewrite Ha.
    now rewrite game_end_time_simulate. }
  split.
  - intros s e Hon Hoff. pose proof (game_active_step_on s e) as Hkeep.
    event_cases e; try (rewrite (Hkeep Hon) in Hoff; discriminate).
    exists now, tc, tr, draw. simpl in *. rewrite (Htick _ _ _ _ _ Hon) in *.
    destruct (geb tc (game_end_time s)).
    + repeat split; reflexivity.
    + rewrite game_active_simulate in Hoff. simpl in Hoff. congruence.
  - intros s now tc tr draw Hon. rewrite (Htick _ _ _ _ _ Hon).
    destruct (geb tc (game_end_time s)); simpl; [reflexivity|].
    rewrite game_active_simulate. exact Hon.
Qed.

(** ** Points *)

Lemma scores_respawn draw i ps : scores (respawn draw i ps) = map (fun _ => 0) ps.
Proof.
  revert i. induction ps as [|[k p] ps IH]; intros i; simpl; [reflexivity|].
  unfold scores in *. simpl. now rewrite IH.
Qed.

(** The collision loop gives one point to one player and takes the coin,
    or changes nothing. *)
Lemma collision_loop_scores c ps :
  (collision_loop c ps = (ps, Some c)) \/
  (exists l1 v l2,
     scores ps = l1 ++ v :: l2 /\
     scores (fst (collision_loop c ps)) = l1 ++ (v + 1) :: l2 /\
     snd (collision_loop c ps) = None).
Proof.
  induction ps as [|[k p] ps IH]; simpl; [left; reflexivity|].
  destruct (touches c p).
  - right. exists [], (score p), (scores ps). simpl. auto.
  - destruct IH as [Heq|(l1 & v & l2 & H1 & H2 & H3)].
    + left. rewrite Heq. reflexivity.
    + right. exists (score p :: l1), v, l2. simpl.
      unfold scores in *. simpl. rewrite H1, H2. auto.
Qed.

(** X10. An iteration of the game loop during a round either leaves every
    score as it was, or raises exactly one score by exactly one; the latter
    only when there was a coin, which is then gone.  Outside a round an
    iteration leaves every score as it was or, when it starts a round, sets
    them all to 0. *)
Theorem tick_awards_at_most_one_point :
  forall s now t_check t_round draw,
    let s' := game_loop_iter now t_check t_round draw s in
    (game_active s = true ->
     scores (players s') = scores (players s) \/
     (exists l1 v l2,
        scores (players s) = l1 ++ v :: l2 /\
        scores (players s') = l1 ++ (v + 1) :: l2 /\
        coin s <> None /\ coin s' = None)) /\
    (game_active s = false ->
     scores (players s') = scores (players s) \/
     (game_active s' = true /\
      scores (players s') = map (fun _ => 0) (players s))).
Proof.
  intros s now tc tr draw s'. split; intros Ha.
  - assert (Hsim :
      let s2 := simulate (now - loop_last s)%float (set_loop_last now s) in
      scores (players s2) = scores (players s) \/
      (exists l1 v l2,
         scores (players s) = l1 ++ v :: l2 /\
         scores (players s2) = l1 ++ (v + 1) :: l2 /\
         coin s <> None /\ coin s2 = None)).
    { unfold simulate, coin_collision. simpl.
      destruct (coin s) as [c|]; simpl; [|left; apply scores_integrate].
      destruct (collision_loop_scores c (integrate (now - loop_last s)%float (players s)))
        as [Heq|(l1 & v & l2 & H1 & H2 & H3)].
      - left. rewrite Heq. simpl. apply scores_integrate.
      - right. exists l1, v, l2. rewrite <- scores_integrate with (dt := (now - loop_last s)%float).
        repeat split; auto. discriminate. }
    unfold s', game_loop_iter. simpl. rewrite Ha.
    destruct (geb tc _); [|exact Hsim].
    simpl. destruct Hsim as [H|(l1 & v & l2 & H1 & H2 & H3 & H4)]; [left; exact H|].
    right. exists l1, v, l2. auto.
  - unfold s', game_loop_iter. simpl. rewrite Ha.
    destruct (float_truthy _ && _ && _); [right|left; reflexivity].
    simpl. split; [reflexivity|apply scores_respawn].
Qed.

(** ** The palette *)

(** X11. [get_color_for_pid] returns a colour of the palette for every
    integer, zero and negative ones included (the index never leaves the
    list), and two integers get the same colour exactly when they differ by a
    multiple of 6: any six consecutive identifiers have six different
    colours. *)
Theorem color_is_palette_entry :
  (forall pid, In (get_color_for_pid pid) palette) /\
  (forall a b, get_color_for_pid a = get_color_for_pid b <-> (a - b) mod 6 = 0).
Proof.
  split.
  - intros pid. unfold get_color_for_pid. apply nth_In. apply palette_index_bound.
  - intros a b. unfold get_color_for_pid. split.
    + intros H.
      pose proof (proj1 (NoDup_nth palette ""%string) palette_NoDup _ _
                    (palette_index_bound a) (palette_index_bound b) H) as Hidx.
      simpl List.length in Hidx.
      pose proof (Z.mod_pos_bound (a - 1) (Z.of_nat 6) ltac:(lia)).
      pose proof (Z.mod_pos_bound (b - 1) (Z.of_nat 6) ltac:(lia)).
      assert (Hm : (a - 1) mod 6 = (b - 1) mod 6) by (apply Z2Nat.inj in Hidx; lia).
      replace (a - b) with ((a - 1) - (b - 1)) by lia.
      rewrite Zminus_mod, Hm, Z.sub_diag. reflexivity.
    + intros H. simpl List.length.
      replace (a - 1) with ((b - 1) + (a - b)) by lia.
      change (Z.of_nat 6) with 6.
      rewrite Zplus_mod, H, Z.add_0_r, Z.mod_mod by lia. reflexivity.
Qed.

Example color_of_zero_and_negative :
  get_color_for_pid 0 = "#f02b85"%string /\ get_color_for_pid (-5) = "#2b85f0"%string.
Proof. split; reflexivity. Qed.

(** ** [clamp] *)

(** X12. For bounds that are numbers with [lo < hi], [clamp v lo hi]
    is [v] when [v] is strictly between the bounds, [lo] when [v] is
    below [hi] but not above [lo], and [hi] when [v] is not below [hi];
    a NaN, which compares false with everything, gives [hi].  In every
    case the result lies between [lo] and [hi]. *)
Theorem clamp_cases :
  forall v lo hi,
    (lo <=? lo)%float = true -> (hi <=? hi)%float = true -> (lo <? hi)%float = true ->
    ((v <? hi)%float = true -> (lo <? v)%float = true -> clamp v lo hi = v) /\
    ((v <? hi)%float = true -> (lo <? v)%float = false -> clamp v lo hi = lo) /\
    ((v <? hi)%float = false -> clamp v lo hi = hi) /\
    (lo <=? clamp v lo hi)%float = true /\ (clamp v lo hi <=? hi)%float = true.
Proof.
  intros v lo hi Hlo Hhi Hlt. unfold clamp, py_max, py_min, gtb.
  repeat split.
  - intros H1 H2. now rewrite H1, H2.
  - intros H1 H2. now rewrite H1, H2.
  - intros H1. now rewrite H1, Hlt.
  - apply (clamp_between v lo hi Hlo Hhi (ltb_leb _ _ Hlt)).
  - apply (clamp_between v lo hi Hlo Hhi (ltb_leb _ _ Hlt)).
Qed.

(** ** What [start_round] resets *)

Lemma respawn_positions draw i ps :
  map (fun kp => (x (snd kp), y (snd kp))) (respawn draw i ps)
  = map draw (seq i (List.length ps)).
Proof.
  revert i. induction ps as [|[k p] ps IH]; intros i; simpl; [reflexivity|].
  rewrite IH. now destruct (draw i).
Qed.

Lemma respawn_sessions draw i ps :
  map (fun kp => (fst kp, ws (snd kp), color (snd kp))) (respawn draw i ps)
  = map (fun kp => (fst kp, ws (snd kp), color (snd kp))) ps.
Proof.
  revert i. induction ps as [|[k p] ps IH]; intros i; simpl; [reflexivity|].
  now rewrite IH.
Qed.

(** X13. [start_round] keeps the connected players, in their order, each
    with its session and colour; it sets every score to 0, gives the i-th
    player of the registry the i-th pair of draws as its position, removes
    the coin and the recorded winner, disarms the intermission deadline,
    turns the round on and sets its end [GAME_DURATION] after the clock
    reading; the identifier counter is untouched. *)
Theorem start_round_resets :
  forall draw now s,
    let s' := start_round draw now s in
    map (fun kp => (fst kp, ws (snd kp), color (snd kp))) (players s')
      = map (fun kp => (fst kp, ws (snd kp), color (snd kp))) (players s) /\
    scores (players s') = map (fun _ => 0) (players s) /\
    map (fun kp => (x (snd kp), y (snd kp))) (players s')
      = map draw (seq 0 (List.length (players s))) /\
    coin s' = None /\ last_winner s' = None /\ intermission_end s' = 0%float /\
    game_active s' = true /\
    game_end_time s' = (now + float_of_int GAME_DURATION)%float /\
    next_pid s' = next_pid s.
Proof.
  intros draw now s. simpl. repeat split.
  - apply respawn_sessions.
  - apply scores_respawn.
  - apply respawn_positions.
Qed.

(** ** Messages *)

(** X14. Every task a connection's message loop creates is an
    [apply_input] for that connection's own identifier, and its payload is
    the ["input"] member of a received object whose ["type"] is the string
    ["input"]: a connection cannot steer another player. *)
Theorem tasks_target_own_player :
  forall pid msgs,
    Forall (fun t =>
              fst t = pid /\
              exists d, In (Decoded (PDict d)) msgs /\
                        py_get d "type" PNone = PStr "input" /\
                        py_item d "input" = Some (snd t))
           (fst (handle_loop pid msgs)).
Proof.
  intros pid msgs. induction msgs as [|m msgs IH]; simpl; [constructor|].
  assert (Hweak : forall l : list (Z * pyval),
            Forall (fun t => fst t = pid /\
                      exists d, In (Decoded (PDict d)) msgs /\
                                py_get d "type" PNone = PStr "input" /\
                                py_item d "input" = Some (snd t)) l ->
            Forall (fun t => fst t = pid /\
                      exists d, (m = Decoded (PDict d) \/ In (Decoded (PDict d)) msgs) /\
                                py_get d "type" PNone = PStr "input" /\
                                py_item d "input" = Some (snd t)) l).
  { intros l Hl. eapply Forall_impl; [|exact Hl].
    intros t (Ht & d & Hin & Hd). split; [exact Ht|]. exists d. tauto. }
  unfold handle_message.
  destruct m as [v| |name]; [|apply Hweak, IH|constructor].
  destruct v as [| | | | | |d]; simpl; try constructor.
  destruct (py_get d "type" PNone) as [| | | |t| |] eqn:Hty; simpl;
    try (apply Hweak, IH).
  destruct (String.eqb_spec t "input") as [->|Hne]; [|apply Hweak, IH].
  destruct (py_item d "input") as [v|] eqn:Hin; simpl; [|constructor].
  constructor; [|apply Hweak, IH].
  simpl. split; [reflexivity|]. exists d. auto.
Qed.

Lemma handle_loop_harmless pid ms m ms2 e :
  Forall (fun m => forall e, handle_message pid m <> Escaped e) ms ->
  handle_message pid m = Escaped e ->
  handle_loop pid (ms ++ m :: ms2) = (fst (handle_loop pid ms), Some e) /\
  snd (handle_loop pid ms) = None.
Proof.
  intros Hms Hm. induction Hms as [|m0 ms H0 _ IH]; simpl.
  - now rewrite Hm.
  - destruct IH as [IH1 IH2].
    destruct (handle_message pid m0) as [p v| | |e0] eqn:E; simpl;
      rewrite ?IH1; auto.
    now elim (H0 e0).
Qed.

(** X15. A message ends the loop of its connection with an uncaught
    exception exactly when it decodes to something other than an object
    ([AttributeError]), or is an object of type ["input"] without an
    ["input"] member ([KeyError]), or makes [json.loads] raise an exception
    other than [json.JSONDecodeError] (that exception); text on which
    [json.loads] raises [json.JSONDecodeError] only logs a warning.  Once
    such a message arrives, the tasks created are those of the messages
    before it: no later message is read. *)
Theorem fatal_message_ends_loop :
  (forall pid m e,
     handle_message pid m = Escaped e <->
     (exists v, m = Decoded v /\ (forall d, v <> PDict d) /\ e = LoopAttributeError) \/
     (exists d, m = Decoded (PDict d) /\
                py_get d "type" PNone = PStr "input" /\
                py_item d "input" = None /\ e = LoopKeyError) \/
     (exists name, m = OtherException name /\ e = LoopOther name)) /\
  (forall pid ms m ms2 e,
     Forall (fun m => forall e, handle_message pid m <> Escaped e) ms ->
     handle_message pid m = Escaped e ->
     handle_loop pid (ms ++ m :: ms2) = (fst (handle_loop pid ms), Some e)) /\
  (forall pid ms, handle_loop pid (JSONDecodeError :: ms) = handle_loop pid ms).
Proof.
  split; [|split].
  - intros pid m e. unfold handle_message. split.
    + destruct m as [v| |name]; [|discriminate|].
      * destruct v as [| | | | | |d];
          try (intros H; inversion H; subst; left; eexists; split; [reflexivity|];
               split; [intros d; discriminate|reflexivity]).
        destruct (py_get d "type" PNone) as [| | | |t| |] eqn:Hty; simpl;
          try discriminate.
        destruct (String.eqb_spec t "input") as [->|Hne]; [|discriminate].
        destruct (py_item d "input") eqn:Hin; [discriminate|].
        intros H; inversion H; subst. right. left. exists d. auto.
      * intros H; inversion H; subst. right. right. exists name. auto.
    + intros [(v & -> & Hv & ->)|[(d & -> & Hty & Hin & ->)|(name & -> & ->)]].
      * destruct v; try reflexivity. now elim (Hv d).
      * rewrite Hty, Hin. reflexivity.
      * reflexivity.
  - intros pid ms m ms2 e Hms Hm.
    apply (handle_loop_harmless pid ms m ms2 e Hms Hm).
  - reflexivity.
Qed.

Example chatter_tasks :
  handle_loop 4 chatter = ([(4, PDict [("up", PBool true)]%string)], Some LoopAttributeError).
Proof. vm_compute. reflexivity. Qed.

Example binary_frame_ends_loop :
  handle_loop 4 [JSONDecodeError; OtherException "UnicodeDecodeError";
                 Decoded (PDict [("type", PStr "input"); ("input", PDict [])])]%string
  = ([], Some (LoopOther "UnicodeDecodeError")).
Proof. vm_compute. reflexivity. Qed.

(** ** [broadcast] and the sleep of the loop *)

Example int_of_float_truncates :
  int_of_float 179.75 = IntVal 179 /\ int_of_float (-0.5) = IntVal 0 /\
  int_of_float (-2.5) = IntVal (-2) /\ int_of_float 0x1p70 = IntVal (2 ^ 70) /\
  int_of_float nan = IntRaise ValueError /\ int_of_float infinity = IntRaise OverflowError.
Proof. vm_compute. repeat split; reflexivity. Qed.

(** X16. [broadcast] sends nothing when nobody is connected.  Otherwise,
    unless [int] raises, it makes exactly one delivery per connected player,
    to that player's session and in registry order, all carrying the same
    snapshot: the registry's identifiers with position, score and colour of
    each player, the coin, the phase, the recorded winner, [GAME_DURATION],
    and a [time_left] that is not negative. *)
Theorem broadcast_reaches_every_session :
  forall now s,
    match broadcast now s with
    | NothingSent => players s = []
    | Sent deliveries =>
        players s <> [] /\
        map fst deliveries = map (fun kp => ws (snd kp)) (players s) /\
        exists snap,
          Forall (fun d => snd d = snap) deliveries /\
          snap_players snap = map (fun kp => (fst kp, view (snd kp))) (players s) /\
          snap_coin snap = coin s /\
          snap_game_active snap = game_active s /\
          snap_last_winner snap = last_winner s /\
          snap_game_duration snap = GAME_DURATION /\
          0 <= snap_time_left snap
    | BroadcastRaise e => players s <> [] /\ time_left now s = IntRaise e
    end.
Proof.
  intros now s. unfold broadcast.
  destruct (players s) as [|kp ps] eqn:Hps; [reflexivity|].
  destruct (time_left now s) as [t|e] eqn:Ht; [|split; [discriminate|reflexivity]].
  split; [discriminate|]. split; [now rewrite map_map|].
  exists {| snap_players := map (fun kp => (fst kp, view (snd kp))) (kp :: ps);
            snap_coin := coin s;
            snap_time_left := t;
            snap_game_active := game_active s;
            snap_game_duration := GAME_DURATION;
            snap_last_winner := last_winner s |}.
  split; [rewrite Forall_map; apply Forall_forall; intros; reflexivity|].
  simpl. repeat split.
  unfold time_left in Ht.
  assert (Hmax : forall n, 0 <= py_max_int 0 n).
  { intros n. unfold py_max_int. destruct (Z.gtb_spec n 0); lia. }
  destruct (game_active s).
  - destruct (int_of_float _); inversion Ht; subst. apply Hmax.
  - destruct (gtb _ _); [|inversion Ht; lia].
    destruct (int_of_float _); inversion Ht; subst. apply Hmax.
Qed.

(** X17. The [time_left] of a snapshot is 0 outside a round unless an
    intermission deadline lies in the future, in particular before the first
    round and after the deadline has passed; it is never negative; and
    computing it raises only when the deadline minus the clock reading is a
    NaN or infinite. *)
Theorem time_left_floor :
  (forall now s,
     game_active s = false -> gtb (intermission_end s) now = false ->
     time_left now s = IntVal 0) /\
  (forall now s n, time_left now s = IntVal n -> 0 <= n) /\
  (forall now s e,
     time_left now s = IntRaise e ->
     exists d,
       (d = (game_end_time s - now)%float \/ d = (intermission_end s - now)%float) /\
       (Prim2SF d = S754_nan \/ exists sign, Prim2SF d = S754_infinity sign)).
Proof.
  assert (Hmax : forall n, 0 <= py_max_int 0 n).
  { intros n. unfold py_max_int. destruct (Z.gtb_spec n 0); lia. }
  assert (Hraise : forall d e, int_of_float d = IntRaise e ->
            Prim2SF d = S754_nan \/ exists sign, Prim2SF d = S754_infinity sign).
  { intros d e. unfold int_of_float.
    destruct (Prim2SF d) as [sg|sg| |sg m ex]; try discriminate; eauto. }
  split; [|split].
  - intros now s Ha Hd. unfold time_left. now rewrite Ha, Hd.
  - intros now s n. unfold time_left.
    destruct (game_active s).
    + destruct (int_of_float _); intros H; inversion H; subst. apply Hmax.
    + destruct (gtb _ _); [|intros H; inversion H; lia].
      destruct (int_of_float _); intros H; inversion H; subst. apply Hmax.
  - intros now s e. unfold time_left.
    destruct (game_active s).
    + destruct (int_of_float (game_end_time s - now)) eqn:Hi; [discriminate|].
      intros _. exists (game_end_time s - now)%float. eauto.
    + destruct (gtb _ _); [|discriminate].
      destruct (int_of_float (intermission_end s - now)) eqn:Hi; [discriminate|].
      intros _. exists (intermission_end s - now)%float. eauto.
Qed.

(** X18. The delay [game_loop] passes to [asyncio.sleep] at the end of
    an iteration is never negative and never a NaN, whatever the two clock
    readings are: it is at least 0 in the order of binary64 numbers. *)
Theorem tick_sleep_not_negative :
  forall now t, (0 <=? tick_sleep now t)%float = true.
Proof.
  intros now t. unfold tick_sleep, py_max, gtb.
  destruct (0 <? _)%float eqn:H; [now apply ltb_leb | reflexivity].
Qed.

Example tick_sleep_examples :
  tick_sleep 10 10.5 = 0%float /\ tick_sleep 10 nan = 0%float /\
  tick_sleep 10 10 = 0x1.999999999999ap-5%float.
Proof. vm_compute. repeat split; reflexivity. Qed.

(** ** A connection that comes and goes *)

Lemma dict_pop_app_last k v ps :
  dict_mem k ps = false -> dict_pop k (ps ++ [(k, v)]) = ps.
Proof.
  induction ps as [|[k' p] ps IH]; simpl.
  - now rewrite Z.eqb_refl.
  - destruct (k =? k'); simpl; [discriminate|]. intros H. now rewrite IH.
Qed.

Lemma respawn_app draw i l1 l2 :
  respawn draw i (l1 ++ l2)
  = respawn draw i l1 ++ respawn draw (i + List.length l1) l2.
Proof.
  revert i. induction l1 as [|[k p] l1 IH]; intros i; simpl.
  - now rewrite Nat.add_0_r.
  - rewrite IH. now replace (S i + List.length l1)%nat with (i + S (List.length l1))%nat by lia.
Qed.

Lemma dict_mem_same_keys k ps ps' :
  keys ps' = keys ps -> dict_mem k ps = false -> dict_mem k ps' = false.
Proof.
  intros Hk Hm. destruct (dict_mem k ps') eqn:Hm'; [|reflexivity].
  apply dict_mem_keys in Hm'. rewrite Hk in Hm'. apply dict_mem_keys in Hm'.
  congruence.
Qed.

(** X19. In a reachable state, take a connection that registers, passes
    the auto-start test of [handle] and disconnects, with no other event in
    between.  The identifier counter ends one higher and the connected
    players are those of before.  If a round was on, the players and the
    other globals are as before.  If no round was on, the registration has
    started one: the players of before are respawned by [start_round], coin
    and winner are cleared, the deadline of the round is the clock reading
    plus [GAME_DURATION], and the round stays on after the player has left,
    even with nobody connected. *)
Theorem connect_then_disconnect :
  forall s w rx ry draw now, reachable s ->
    let pid := fst (handle_register w rx ry s) in
    let s1 := snd (handle_register w rx ry s) in
    let s' := handle_finally pid (handle_auto_start draw now s1) in
    next_pid s' = next_pid s + 1 /\
    keys (players s') = keys (players s) /\
    (game_active s = true ->
     players s' = players s /\
     coin s' = coin s /\ game_active s' = true /\
     game_end_time s' = game_end_time s /\
     intermission_end s' = intermission_end s /\
     last_winner s' = last_winner s) /\
    (game_active s = false ->
     players s' = respawn draw 0 (players s) /\
     coin s' = None /\ game_active s' = true /\
     game_end_time s' = (now + float_of_int GAME_DURATION)%float /\
     intermission_end s' = 0%float /\
     last_winner s' = None).
Proof.
  intros s w rx ry draw now Hr.
  destruct (reachable_registry_ok s Hr) as [_ Hb _ _].
  assert (Hfresh : dict_mem (next_pid s) (players s) = false).
  { destruct (dict_mem (next_pid s) (players s)) eqn:Hm; [|reflexivity].
    apply dict_mem_keys in Hm. rewrite Forall_forall in Hb.
    specialize (Hb _ Hm). lia. }
  assert (Hset : forall v,
            dict_set (next_pid s) v (players s) = players s ++ [(next_pid s, v)]).
  { intros v. apply dict_set_fresh.
    eapply Forall_impl; [|exact Hb]. simpl. intros; lia. }
  assert (Hlen : forall v : Z * Player,
            (1 <=? Z.of_nat (List.length (players s ++ [v]))) = true).
  { intros v. rewrite length_app. simpl. apply Z.leb_le. lia. }
  assert (Hkept : dict_mem (next_pid s) (respawn draw 0 (players s)) = false).
  { apply (dict_mem_same_keys _ (players s)); [apply keys_respawn|exact Hfresh]. }
  cbv zeta. unfold handle_finally, handle_auto_start, handle_register.
  cbn [fst snd players game_active next_pid coin game_end_time intermission_end
       last_winner set_players].
  rewrite Hset, Hlen.
  destruct (game_active s) eqn:Ha; cbn [negb andb];
    cbn [start_round players game_active next_pid coin game_end_time
         intermission_end last_winner].
  - rewrite dict_pop_app_last by exact Hfresh.
    repeat split; intros; try discriminate; repeat split.
  - rewrite respawn_app. cbn [respawn app].
    rewrite dict_pop_app_last by exact Hkept.
    repeat split; intros; try discriminate; repeat split.
    apply keys_respawn.
Qed.

(** X20. In every reachable state no score is negative, so the starting
    value -1 of [best_score] in [end_round] is below every score. *)
Theorem scores_not_negative :
  forall s, reachable s ->
  forall pid p, In (pid, p) (players s) -> 0 <= score p.
Proof.
  intros s Hr pid p Hin.
  destruct (reachable_registry_ok s Hr) as [_ _ _ Hsc].
  unfold all_players in Hsc. rewrite Forall_forall in Hsc. exact (Hsc _ Hin).
Qed.

End Game.

(** * Sample runs

    The lemmas below run the model on the sample runs, with [sample_math]
    for the library. *)

#[local] Existing Instance sample_math.

Example demo_scores :
  map (fun kp => (fst kp, score (snd kp))) (players demo_state) = [(1, 1); (2, 1)].
Proof. vm_compute. reflexivity. Qed.

Example demo_winner :
  last_winner (game_loop_iter 200 200 200 demo_draws demo_state) = Some 1.
Proof. vm_compute. reflexivity. Qed.

Lemma end_round_picks_first_best_witness :
  let s2 := simulate (200 - loop_last demo_state)%float (set_loop_last 200 demo_state) in
  game_loop_iter 200 200 200 demo_draws demo_state = end_round 200 s2 /\
  (players s2 = [] -> last_winner (end_round 200 s2) = None) /\
  (players s2 <> [] ->
   exists pid p l1 l2,
     last_winner (end_round 200 s2) = Some pid /\
     players s2 = l1 ++ (pid, p) :: l2 /\
     Forall (fun kp => score (snd kp) < score p) l1 /\
     (forall q pq, In (q, pq) (players s2) ->
        score pq <= score p /\ (score pq = score p -> pid <= q))).
Proof.
  apply (end_round_picks_first_best demo_state 200 200 200 demo_draws).
  - exact demo_reachable.
  - vm_compute. reflexivity.
  - vm_compute. reflexivity.
Defined.

Lemma position_within_map_witness :
  exists p, In (2, p) (players demo_state) /\
    ((float_of_int PLAYER_R <=? x p)%float = true /\
     (x p <=? float_of_int (MAP_W - PLAYER_R))%float = true) /\
    ((float_of_int PLAYER_R <=? y p)%float = true /\
     (y p <=? float_of_int (MAP_H - PLAYER_R))%float = true).
Proof.
  eexists. split.
  - vm_compute. right. left. reflexivity.
  - apply (position_within_map demo_state demo_reachable 2).
    vm_compute. right. left. reflexivity.
Defined.

Example issued_after_disconnect :
  issued (init 0) [Connect 0 100 100; Disconnect 1; Connect 1 100 100;
                   Disconnect 2; Connect 2 100 100] = [1; 2; 3].
Proof. vm_compute. reflexivity. Qed.

Lemma applied_velocity_zero_or_unit_witness :
  exists s' p',
    apply_input 2 (PDict [("up", PBool true); ("right", PInt 1)]%string) demo_state = Ok s' /\
    dict_get 2 (players s') = Some p' /\
    (abs (hypot (vx p') (vy p') - 1) <=? 0x1p-52)%float = true.
Proof.
  destruct (applied_velocity_zero_or_unit (demo_state (lib := sample_math)) 2
              [("up", PBool true); ("right", PInt 1)]%string eq_refl)
    as (s' & p' & H1 & H2 & _ & _ & H3).
  exists s', p'. split; [exact H1|]. split; [exact H2|].
  apply H3. vm_compute. intros [H _]. discriminate H.
Defined.

Lemma apply_input_absent_is_noop_witness :
  apply_input 7 (PList []) demo_state = Ok demo_state /\
  step demo_state (Input 7 (PList [])) = demo_state.
Proof. apply (apply_input_absent_is_noop demo_state 7 (PList [])). reflexivity. Defined.

Example apply_input_present_not_a_dict :
  apply_input 1 (PList []) demo_state = Raise AttributeError.
Proof. vm_compute. reflexivity. Qed.

Example crowd_scores_after_tick :
  scores (players (game_loop_iter 1 1 1 demo_draws crowd_state)) = [1; 0].
Proof. vm_compute. reflexivity. Qed.

Lemma first_toucher_collects_witness :
  exists p1 p2,
    players crowd_state = [(1, p1); (2, p2)] /\
    float_of_int (PLAYER_R + COIN_R) = 25%float /\
    (math_hypot (x (move_player 1 p1) - 100) (y (move_player 1 p1) - 100) <=? 25)%float = true /\
    (math_hypot (x (move_player 1 p2) - 100) (y (move_player 1 p2) - 100) <=? 25)%float = true /\
    let s' := game_loop_iter 1 1 1 demo_draws crowd_state in
    scores (players s') = [score p1 + 1; score p2] /\ coin s' = None.
Proof.
  eexists. eexists. split; [vm_compute; reflexivity|].
  split; [vm_compute; reflexivity|].
  split; [vm_compute; reflexivity|].
  split; [vm_compute; reflexivity|].
  refine (let H := first_toucher_collects (lib := sample_math) crowd_state
                     {| coin_x := 100; coin_y := 100 |} 1 1 1 demo_draws
                     [] 1 _ [(2, _)] eq_refl eq_refl eq_refl (Forall_nil _) eq_refl
          in conj (proj1 (proj2 H)) (proj2 (proj2 H))).
Defined.

Example moving_state_velocity :
  option_map (fun p => (vx p, vy p)) (dict_get 2 (players moving_state))
  = Some (-0x1.6a09e667f3bccp-1, 0x1.6a09e667f3bccp-1)%float.
Proof. vm_compute. reflexivity. Qed.

Lemma start_round_stops_players_witness :
  exists p,
    dict_get 2 (players (start_round demo_draws 300 moving_state)) = Some p /\
    vx p = 0%float /\ vy p = 0%float.
Proof.
  eexists. split; [vm_compute; reflexivity|].
  apply (start_round_stops_players demo_draws 300 moving_state 2).
  vm_compute. right. left. reflexivity.
Defined.

(** C7, as stated, fails: in a reachable intermission whose deadline is
    210, with players connected, a registration at time 201 starts the
    round although the deadline has not elapsed. *)
Lemma registration_starts_round_before_deadline :
  reachable intermission_state /\
  game_active intermission_state = false /\
  keys (players intermission_state) = [1; 2] /\
  intermission_end intermission_state = 210%float /\
  geb 201 (intermission_end intermission_state) = false /\
  game_active early_registration = true.
Proof.
  split; [exact intermission_reachable|]. vm_compute. repeat split; reflexivity.
Qed.

Lemma coin_only_while_active_witness :
  coin crowd_state = Some {| coin_x := 100; coin_y := 100 |} /\
  game_active crowd_state = true.
Proof.
  split; [reflexivity|].
  apply (coin_only_while_active crowd_state crowd_reachable). discriminate.
Defined.

Lemma registry_identifiers_witness :
  NoDup (keys (players demo_state)) /\
  StronglySorted Z.lt (keys (players demo_state)) /\
  Forall (fun k => 1 <= k < next_pid demo_state) (keys (players demo_state)).
Proof. apply (registry_identifiers demo_state demo_reachable). Defined.

Lemma color_follows_identifier_witness :
  exists p, In (2, p) (players demo_state) /\ color p = "#ff4d4f"%string.
Proof.
  eexists. split.
  - vm_compute. right. left. reflexivity.
  - apply (color_follows_identifier demo_state demo_reachable 2).
    vm_compute. right. left. reflexivity.
Defined.

Lemma velocity_zero_or_unit_witness :
  exists p, In (2, p) (players moving_state) /\
    (hypot (vx p) (vy p) = 0%float \/
     (abs (hypot (vx p) (vy p) - 1) <=? 0x1p-52)%float = true).
Proof.
  eexists. split.
  - vm_compute. right. left. reflexivity.
  - apply (velocity_zero_or_unit moving_state moving_reachable 2).
    vm_compute. right. left. reflexivity.
Defined.

Lemma active_round_has_no_winner_witness :
  last_winner demo_state = None /\ intermission_end demo_state = 0%float.
Proof. apply (active_round_has_no_winner demo_state demo_reachable). reflexivity. Defined.

Lemma disconnect_removes_one_player_witness :
  keys (players (handle_finally 1 demo_state)) = [2] /\
  next_pid (handle_finally 1 demo_state) = 3.
Proof.
  pose proof (disconnect_removes_one_player demo_state 1 demo_reachable) as H.
  split; [|reflexivity].
  destruct H as [H _]. rewrite H. reflexivity.
Defined.

Lemma registration_appends_new_player_witness :
  fst (handle_register 5 60 70 demo_state) = 3 /\
  keys (players (snd (handle_register 5 60 70 demo_state))) = [1; 2; 3].
Proof.
  pose proof (registration_appends_new_player demo_state 5 60 70 demo_reachable) as H.
  cbv zeta in H. destruct H as (H1 & _ & H3 & _).
  split; [exact H1|]. rewrite H3. reflexivity.
Defined.

Lemma apply_input_changes_velocity_only_witness :
  exists s',
    apply_input 2 (PDict [("down", PBool true); ("left", PBool true)]%string) demo_state
      = Ok s' /\
    globals s' = globals demo_state /\
    dict_get 1 (players s') = dict_get 1 (players demo_state).
Proof.
  destruct (apply_input 2 (PDict [("down", PBool true); ("left", PBool true)]%string)
              demo_state) as [s'|e] eqn:H; [|vm_compute in H; discriminate H].
  exists s'. split; [reflexivity|].
  destruct (apply_input_changes_velocity_only demo_state 2 _ s' H) as (_ & H2 & H3).
  split; [exact H3|]. apply H2. discriminate.
Defined.

Example tick_without_coin_keeps_scores :
  scores (players (game_loop_iter 3 3 3 demo_draws demo_state)) = [1; 1].
Proof. vm_compute. reflexivity. Qed.

Example start_round_positions :
  map (fun kp => (x (snd kp), y (snd kp)))
    (players (start_round (fun i => (float_of_int (Z.of_nat i), 7%float)) 0 demo_state))
  = [(0, 7); (1, 7)]%float.
Proof. vm_compute. reflexivity. Qed.

Example broadcast_demo :
  match broadcast 30.5 demo_state with
  | Sent deliveries =>
      map fst deliveries = [0%nat; 1%nat] /\
      map (fun d => snap_time_left (snd d)) deliveries = [149; 149]
  | _ => False
  end.
Proof. vm_compute. split; reflexivity. Qed.

Example time_left_examples :
  time_left 5 (init 0) = IntVal 0 /\
  time_left 30.5 demo_state = IntVal 149 /\
  time_left 500 demo_state = IntVal 0 /\
  time_left 203.5 intermission_state = IntVal 6 /\
  time_left 211 intermission_state = IntVal 0.
Proof. vm_compute. repeat split; reflexivity. Qed.

Lemma scores_not_negative_witness :
  exists p, In (1, p) (players demo_state) /\ 0 <= score p.
Proof.
  eexists. split.
  - vm_compute. left. reflexivity.
  - apply (scores_not_negative demo_state demo_reachable 1).
    vm_compute. left. reflexivity.
Defined.

Lemma clamp_cases_witness :
  clamp nan 15 785 = 785%float /\ clamp neg_infinity 15 785 = 15%float.
Proof.
  destruct (clamp_cases nan 15 785 eq_refl eq_refl eq_refl) as (_ & _ & H3 & _).
  destruct (clamp_cases neg_infinity 15 785 eq_refl eq_refl eq_refl) as (_ & H2 & _).
  split; [apply H3 | apply H2]; reflexivity.
Defined.

Lemma connect_then_disconnect_witness :
  let s' := handle_finally 1 (handle_auto_start demo_draws 5
                                (snd (handle_register 5 60 70 (init 0)))) in
  players s' = [] /\ next_pid s' = 2 /\
  game_active s' = true /\ game_end_time s' = 185%float.
Proof.
  destruct (connect_then_disconnect (init 0) 5 60 70 demo_draws 5 (reach_init 0))
    as (H1 & _ & _ & H4).
  destruct (H4 eq_refl) as (Hp & _ & Ha & Ht & _).
  cbv zeta. split; [exact Hp|]. split; [exact H1|]. split; [exact Ha | exact Ht].
Defined.
